(** * Campus navigation: the routing core of [src/components/CampusMap.js]

    A shallow embedding of the four routing functions of the [CampusMap]
    component ([buildAdjacencyList], [findNearestNode], [dijkstra] and
    [handleNavigation]) together with the properties of the routing
    subsystem that are stated in the specification.

    Modelling decisions:
    - A JavaScript number is an element of a type [num] carrying the
      operations the component uses on numbers ([<], [===], [+], [0] and
      [Infinity]); see [Number].  The order and monotonicity facts the
      shortest-path argument relies on are collected in [NumberLaws]; they
      hold of the non-negative IEEE doubles (without NaN) and of the
      integers extended with an infinity, which is the instance used to run
      the functions on concrete inputs.
    - A JavaScript object used as a dictionary is an association list in
      insertion order: [Object.keys] enumerates the (non index-like) string
      keys in the order in which they were first written, and both
      [findNearestNode] and the minimum selection of [dijkstra] depend on
      that order.
    - A graph key is [JSON.stringify] of a [[lat, lng]] array.  Two such
      strings are equal exactly when the two numbers are, so a key is
      modelled by the coordinate pair itself, [JSON_stringify] and
      [JSON_parse] being the two directions of that identification.
    - [L.latLng(a).distanceTo(b)] belongs to the Leaflet library, not to the
      component; it is the parameter [distanceTo].
    - The two [while] loops of [dijkstra] take a bound on the number of
      times their body may run; [OutOfFuel] is the result when the bound is
      hit, and termination is proved by giving a bound that suffices. *)

From Stdlib Require Import String Bool Arith Lia ZArith List.
Import ListNotations.

Set Implicit Arguments.

(** ** JavaScript numbers *)

Class Number (num : Type) : Type := {
  (** [x === y] on numbers (also the equality of the stringified keys) *)
  num_eq_dec : forall x y : num, {x = y} + {x <> y};
  (** [x < y] *)
  ltb : num -> num -> bool;
  (** [x + y] *)
  add : num -> num -> num;
  (** the literal [0] *)
  zero : num;
  (** the global [Infinity] *)
  Infinity : num
}.

(** [x <= y], read as "not [y < x]". *)
Definition leq {num} `{Number num} (x y : num) : Prop := ltb y x = false.

Class NumberLaws (num : Type) `{Number num} : Prop := {
  ltb_irrefl : forall x, ltb x x = false;
  ltb_trans : forall x y z, ltb x y = true -> ltb y z = true -> ltb x z = true;
  ltb_connected : forall x y, ltb x y = false -> ltb y x = false -> x = y;
  add_mono : forall x y w, leq x y -> leq (add x w) (add y w);
  add_increasing : forall x w, leq zero w -> leq x (add x w);
  Infinity_greatest : forall x, leq x Infinity;
  zero_finite : ltb zero Infinity = true
}.

Arguments NumberLaws num {_}.

(** The integers with an infinity on top: the numbers on which the
    functions below are evaluated on concrete inputs. *)
Inductive ZInf : Type :=
| Fin (z : Z)
| Inf.

Definition ZInf_eq_dec (x y : ZInf) : {x = y} + {x <> y}.
Proof.
  decide equality. apply Z.eq_dec.
Defined.

Definition ZInf_ltb (x y : ZInf) : bool :=
  match x, y with
  | Fin a, Fin b => Z.ltb a b
  | Fin _, Inf => true
  | Inf, _ => false
  end.

Definition ZInf_add (x y : ZInf) : ZInf :=
  match x, y with
  | Fin a, Fin b => Fin (a + b)
  | _, _ => Inf
  end.

#[export] Instance ZInf_Number : Number ZInf := {
  num_eq_dec := ZInf_eq_dec;
  ltb := ZInf_ltb;
  add := ZInf_add;
  zero := Fin 0;
  Infinity := Inf
}.

(** ** JavaScript objects used as dictionaries, and [Set] *)

Section Objects.
Variable K : Type.
Variable K_eq_dec : forall a b : K, {a = b} + {a <> b}.

Section Obj.
Variable V : Type.

Definition Obj : Type := list (K * V).

(** [o[k]]; [None] is [undefined]. *)
Fixpoint get (o : Obj) (k : K) : option V :=
  match o with
  | [] => None
  | (k', v) :: o' => if K_eq_dec k' k then Some v else get o' k
  end.

(** [o[k] = v]: an existing property keeps its place, a new one is
    added last. *)
Fixpoint set (o : Obj) (k : K) (v : V) : Obj :=
  match o with
  | [] => [(k, v)]
  | (k', v') :: o' =>
      if K_eq_dec k' k then (k', v) :: o' else (k', v') :: set o' k v
  end.

(** [Object.keys(o)] *)
Definition keys (o : Obj) : list K := map fst o.
End Obj.

(** [s.add(k)] on a [Set], kept in insertion order. *)
Definition Set_add (s : list K) (k : K) : list K :=
  if in_dec K_eq_dec k s then s else s ++ [k].

(** [new Set(l)] *)
Definition new_Set (l : list K) : list K := fold_left Set_add l [].

(** [s.delete(k)] *)
Definition Set_delete (s : list K) (k : K) : list K := remove K_eq_dec k s.
End Objects.

Arguments get {K} K_eq_dec {V} o k.
Arguments set {K} K_eq_dec {V} o k v.
Arguments keys {K V} o.

(** ** Results of running a function *)

Inductive Run (A : Type) : Type :=
| Done (a : A)     (** normal completion with value [a] *)
| TypeError        (** a property of [undefined] or [null] was read *)
| OutOfFuel.       (** a loop ran longer than the bound it was given *)

Arguments TypeError {A}.
Arguments OutOfFuel {A}.

(** ** The component *)

Section CampusMap.
Context {num : Type} `{Number num}.

(** A coordinate [[lat, lng]] after transposition, and a graph key. *)
Definition Coord : Type := (num * num)%type.
Definition Key : Type := Coord.

Definition JSON_stringify (c : Coord) : Key := c.
Definition JSON_parse (k : Key) : Coord := k.

Definition Key_eq_dec (a b : Key) : {a = b} + {a <> b}.
Proof.
  decide equality; apply num_eq_dec.
Defined.

(** [adjacencyList]: node key -> (neighbour key -> weight). *)
Definition Graph : Type := Obj Key (Obj Key num).

(** [L.latLng(a).distanceTo(b)] *)
Variable distanceTo : Coord -> Coord -> num.

(** *** buildAdjacencyList *)

(** A position of a source document, in (longitude, latitude) order. *)
Definition Position : Type := (num * num)%type.

(** [road.geometry.coordinates] *)
Definition RoadFeature : Type := list Position.

(** [([lng, lat]) => [lat, lng]] *)
Definition transpose (p : Position) : Coord :=
  let '(lng, lat) := p in (lat, lng).

(** [if (!graph[key]) graph[key] = {};] *)
Definition ensureNode (graph : Graph) (key : Key) : Graph :=
  match get Key_eq_dec graph key with
  | Some _ => graph
  | None => set Key_eq_dec graph key []
  end.

(** [graph[key1][key2] = distance;], which the builder runs for a [key1]
    that [ensureNode] has made a property of [graph]. *)
Definition setEdge (graph : Graph) (key1 key2 : Key) (distance : num)
  : Graph :=
  match get Key_eq_dec graph key1 with
  | Some adj => set Key_eq_dec graph key1 (set Key_eq_dec adj key2 distance)
  | None => graph
  end.

(** The body of the [for] loop for [coords[i]] and [coords[i + 1]]. *)
Definition addSegment (graph : Graph) (c1 c2 : Coord) : Graph :=
  let key1 := JSON_stringify c1 in
  let key2 := JSON_stringify c2 in
  let graph := ensureNode graph key1 in
  let graph := ensureNode graph key2 in
  let distance := distanceTo c1 c2 in
  let graph := setEdge graph key1 key2 distance in
  let graph := setEdge graph key2 key1 distance in
  graph.

(** [for (let i = 0; i < coords.length - 1; i++) ...] *)
Fixpoint forSegments (graph : Graph) (coords : list Coord) : Graph :=
  match coords with
  | c1 :: ((c2 :: _) as rest) => forSegments (addSegment graph c1 c2) rest
  | _ => graph
  end.

Definition buildAdjacencyList (roads : list RoadFeature) : Graph :=
  fold_left
    (fun graph road =>
       let coords := map transpose road in
       forSegments graph coords)
    roads [].

(** *** findNearestNode *)

(** The callback of [Object.keys(adjacencyList).forEach]; [acc] holds
    [nearest] and [minDistance]. *)
Definition nearer (latlng : Coord) (acc : option Key * num) (node : Key)
  : option Key * num :=
  let '(nearest, minDistance) := acc in
  let nodeCoords := JSON_parse node in
  let distance := distanceTo latlng nodeCoords in
  if ltb distance minDistance then (Some node, distance)
  else (nearest, minDistance).

Definition findNearestNode (adjacencyList : Graph) (latlng : Coord)
  : option Key :=
  fst (fold_left (nearer latlng) (keys adjacencyList) (None, Infinity)).

(** *** dijkstra *)

(** [a < b] where either side may be [undefined]. *)
Definition lt_js (a b : option num) : bool :=
  match a, b with
  | Some x, Some y => ltb x y
  | _, _ => false
  end.

(** [a + b] where either side may be [undefined] (the sum is then NaN,
    which compares false with everything: [None]). *)
Definition add_js (a b : option num) : option num :=
  match a, b with
  | Some x, Some y => Some (add x y)
  | _, _ => None
  end.

(** [a === Infinity] *)
Definition is_Infinity (a : option num) : bool :=
  match a with
  | Some x => if num_eq_dec x Infinity then true else false
  | None => false
  end.

Record DState : Type := {
  distances : Obj Key num;
  previous : Obj Key (option Key);
  unvisited : list Key
}.

(** The state before the main loop is entered. *)
Definition initState (adjacencyList : Graph) (start : Key) : DState :=
  let unvisited := new_Set Key_eq_dec (keys adjacencyList) in
  let '(distances, previous) :=
    fold_left
      (fun (dp : Obj Key num * Obj Key (option Key)) node =>
         (set Key_eq_dec (fst dp) node Infinity,
          set Key_eq_dec (snd dp) node None))
      (keys adjacencyList) ([], []) in
  let distances := set Key_eq_dec distances start zero in
  {| distances := distances; previous := previous; unvisited := unvisited |}.

(** [Array.from(unvisited).reduce(...)] on a non-empty set. *)
Definition selectMin (distances : Obj Key num) (first : Key)
  (rest : list Key) : Key :=
  fold_left
    (fun minNode node =>
       if lt_js (get Key_eq_dec distances node)
                (get Key_eq_dec distances minNode)
       then node else minNode)
    rest first.

(** The body of [Object.keys(adjacencyList[current]).forEach]. *)
Definition relaxNeighbor (adj : Obj Key num) (current : Key)
  (dp : Obj Key num * Obj Key (option Key)) (neighbor : Key)
  : Obj Key num * Obj Key (option Key) :=
  let '(distances, previous) := dp in
  let alt :=
    add_js (get Key_eq_dec distances current) (get Key_eq_dec adj neighbor) in
  if lt_js alt (get Key_eq_dec distances neighbor) then
    match alt with
    | Some a =>
        (set Key_eq_dec distances neighbor a,
         set Key_eq_dec previous neighbor (Some current))
    | None => dp
    end
  else dp.

Inductive Step : Type :=
| Continue (st : DState)
| Break (st : DState)
| StepError.

(** One run of the body of [while (unvisited.size)]; the loop does not
    enter its body with an empty set.  [Object.keys(adjacencyList[current])]
    throws when [current] is not a property of [adjacencyList]. *)
Definition iteration (adjacencyList : Graph) (end_ : Key) (st : DState)
  : Step :=
  match unvisited st with
  | [] => Break st
  | first :: rest =>
      let current := selectMin (distances st) first rest in
      if is_Infinity (get Key_eq_dec (distances st) current) then Break st
      else if Key_eq_dec current end_ then Break st
      else
        let unvisited' := Set_delete Key_eq_dec (unvisited st) current in
        match get Key_eq_dec adjacencyList current with
        | None => StepError
        | Some adj =>
            let '(distances', previous') :=
              fold_left (relaxNeighbor adj current) (keys adj)
                (distances st, previous st) in
            Continue {| distances := distances';
                        previous := previous';
                        unvisited := unvisited' |}
        end
  end.

(** [while (unvisited.size) { ... }] *)
Fixpoint mainLoop (fuel : nat) (adjacencyList : Graph) (end_ : Key)
  (st : DState) : Run DState :=
  match unvisited st with
  | [] => Done st
  | _ :: _ =>
      match fuel with
      | O => OutOfFuel
      | S fuel' =>
          match iteration adjacencyList end_ st with
          | Continue st' => mainLoop fuel' adjacencyList end_ st'
          | Break st' => Done st'
          | StepError => TypeError
          end
      end
  end.

(** [previous[step]], where both a missing entry and [null] end the walk. *)
Definition previousOf (previous : Obj Key (option Key)) (step : Key)
  : option Key :=
  match get Key_eq_dec previous step with
  | Some p => p
  | None => None
  end.

(** [while (step) { path.unshift(JSON.parse(step)); step = previous[step]; }] *)
Fixpoint walkBack (fuel : nat) (previous : Obj Key (option Key))
  (step : option Key) (path : list Coord) : Run (list Coord) :=
  match step with
  | None => Done path
  | Some s =>
      match fuel with
      | O => OutOfFuel
      | S fuel' =>
          walkBack fuel' previous (previousOf previous s)
            (JSON_parse s :: path)
      end
  end.

(** [dijkstra(start, end)]; the result is the [path] field of the
    returned object, [None] being [null]. *)
Definition dijkstra (fuel : nat) (adjacencyList : Graph)
  (start end_ : option Key) : Run (option (list Coord)) :=
  match start, end_ with
  | Some start, Some end_ =>
      match mainLoop fuel adjacencyList end_ (initState adjacencyList start) with
      | Done st =>
          match walkBack fuel (previous st) (Some end_) [] with
          | Done path => Done (Some path)
          | TypeError => TypeError
          | OutOfFuel => OutOfFuel
          end
      | TypeError => TypeError
      | OutOfFuel => OutOfFuel
      end
  | _, _ => Done None
  end.

(** *** handleNavigation *)

(** A feature of the points document: [properties.name] and
    [geometry.coordinates]. *)
Record PointFeature : Type := {
  name : string;
  coordinates : Position
}.

(** The React state read and written by [handleNavigation];
    [points] is [geoData.points.features], absent when the document
    failed to load. *)
Record State : Type := {
  points : option (list PointFeature);
  startPoint : option string;
  endPoint : option string;
  route : option (list Coord);
  adjacencyList : Graph
}.

Definition setRoute (st : State) (r : option (list Coord)) : State :=
  {| points := points st;
     startPoint := startPoint st;
     endPoint := endPoint st;
     route := r;
     adjacencyList := adjacencyList st |}.

(** [!s] for a string or [null]. *)
Definition falsy (s : option string) : bool :=
  match s with
  | None => true
  | Some s => String.eqb s EmptyString
  end.

(** [features.find(p => p.properties.name === n)?.geometry.coordinates] *)
Definition coordinatesOf (features : list PointFeature) (n : string)
  : option Position :=
  match find (fun p => String.eqb (name p) n) features with
  | Some p => Some (coordinates p)
  | None => None
  end.

(** The part of the handler that follows the resolution of the two
    selected points to [startNode] and [endNode]. *)
Definition routeBetween (fuel : nat) (st : State)
  (startNode endNode : option Key) : Run (State * option string) :=
  match startNode, endNode with
  | Some _, Some _ =>
      match dijkstra fuel (adjacencyList st) startNode endNode with
      | Done path =>
          match path with
          | Some p =>
              if length p <? 2 then
                Done (setRoute st None,
                      Some "No valid path found between selected points."%string)
              else Done (setRoute st (Some p), None)
          | None =>
              Done (setRoute st None,
                    Some "No valid path found between selected points."%string)
          end
      | TypeError => TypeError
      | OutOfFuel => OutOfFuel
      end
  | _, _ =>
      Done (st, Some "Selected points are not connected to the road network!"%string)
  end.

(** The state after the handler has run, and the message it alerted.
    Reading [geoData.points.features] throws when the points document is
    absent. *)
Definition handleNavigation (fuel : nat) (st : State)
  : Run (State * option string) :=
  if falsy (startPoint st) || falsy (endPoint st) then
    Done (st, Some "Select both start and end points!"%string)
  else
    match startPoint st, endPoint st, points st with
    | Some startName, Some endName, Some features =>
        match coordinatesOf features startName,
              coordinatesOf features endName with
        | Some startCoords, Some endCoords =>
            let startNode :=
              findNearestNode (adjacencyList st)
                (snd startCoords, fst startCoords) in
            let endNode :=
              findNearestNode (adjacencyList st)
                (snd endCoords, fst endCoords) in
            routeBetween fuel st startNode endNode
        | _, _ => Done (st, Some "Invalid points selected!"%string)
        end
    | _, _, _ => TypeError
    end.

End CampusMap.

Arguments Coord num : clear implicits.
Arguments Key num : clear implicits.
Arguments Graph num : clear implicits.
Arguments Position num : clear implicits.
Arguments RoadFeature num : clear implicits.
Arguments DState num : clear implicits.
Arguments Step num : clear implicits.
Arguments PointFeature num : clear implicits.
Arguments State num : clear implicits.

(** ** Loading the documents and selecting the points *)

Section Loading.
Context {num : Type} `{Number num}.
Variable distanceTo : Coord num -> Coord num -> num.

(** The state with which the component is mounted: the arguments of the
    five [useState] calls. *)
Definition initialState : State num :=
  {| points := None;
     startPoint := None;
     endPoint := None;
     route := None;
     adjacencyList := [] |}.

(** The callback of [Promise.all([...]).then]: [roads] and [features] are
    the [features] of the roads and of the points document, absent when
    [loadGeoJSON] has returned [null] for the document.  The [roads] and
    [buildings] members of [geoData] are read by the renderer only. *)
Definition onLoaded (roads : option (list (RoadFeature num)))
  (features : option (list (PointFeature num))) (st : State num)
  : State num :=
  {| points := features;
     startPoint := startPoint st;
     endPoint := endPoint st;
     route := route st;
     adjacencyList :=
       match roads with
       | Some roads => buildAdjacencyList distanceTo roads
       | None => adjacencyList st
       end |}.

(** [onChange={(e) => setStartPoint(e.target.value)}] *)
Definition setStartPoint (st : State num) (value : string) : State num :=
  {| points := points st;
     startPoint := Some value;
     endPoint := endPoint st;
     route := route st;
     adjacencyList := adjacencyList st |}.

(** [onChange={(e) => setEndPoint(e.target.value)}] *)
Definition setEndPoint (st : State num) (value : string) : State num :=
  {| points := points st;
     startPoint := startPoint st;
     endPoint := Some value;
     route := route st;
     adjacencyList := adjacencyList st |}.
End Loading.

(** ** Vocabulary of the specification *)

Section Vocabulary.
Context {num : Type} `{Number num}.

(** [adjacencyList[a][b]]: the weight stored for the edge from [a] to
    [b], if there is one. *)
Definition edge (g : Graph num) (a b : Key num) : option num :=
  match get Key_eq_dec g a with
  | Some adj => get Key_eq_dec adj b
  | None => None
  end.

(** Every adjacency map lists a neighbour at most once, and so does the
    graph its nodes. *)
Definition noParallelEdges (g : Graph num) : Prop :=
  NoDup (keys g) /\
  forall a adj, get Key_eq_dec g a = Some adj -> NoDup (keys adj).

(** All stored weights are [>= 0]. *)
Definition nonNegative (g : Graph num) : Prop :=
  Forall (fun entry => Forall (fun nw => leq zero (snd nw)) (snd entry)) g.

(** The segments [(coords[i], coords[i + 1])] of a polyline, in order. *)
Fixpoint segments (A : Type) (coords : list A) : list (A * A) :=
  match coords with
  | c1 :: ((c2 :: _) as rest) => (c1, c2) :: segments rest
  | _ => []
  end.

(** All segments of all road features, transposed, in the order in
    which [buildAdjacencyList] inserts them. *)
Definition roadSegments (roads : list (RoadFeature num)) : list (Coord num * Coord num) :=
  flat_map (fun road => segments (map transpose road)) roads.

(** The graph after the segments [segs] have been inserted into [g], one
    after the other. *)
Definition insertAll (distanceTo : Coord num -> Coord num -> num)
  (g : Graph num) (segs : list (Coord num * Coord num)) : Graph num :=
  fold_left (fun g s => addSegment distanceTo g (fst s) (snd s)) segs g.

(** The segment [s] joins [a] and [b], in one orientation or the other. *)
Definition joins (s : Coord num * Coord num) (a b : Key num) : Prop :=
  (JSON_stringify (fst s) = a /\ JSON_stringify (snd s) = b) \/
  (JSON_stringify (fst s) = b /\ JSON_stringify (snd s) = a).

(** The keys of the two ends of every segment, in the order in which the
    builder meets them. *)
Definition endpoints (segs : list (Coord num * Coord num)) : list (Key num) :=
  flat_map (fun s => [JSON_stringify (fst s); JSON_stringify (snd s)]) segs.

(** [walk g start v W]: there is a sequence of edges of [g] leading from
    [start] to [v], and [W] is the sum of their weights, added up from
    [start] on as [dijkstra] does. *)
Inductive walk (g : Graph num) (start : Key num) : Key num -> num -> Prop :=
| walk_start : walk g start start zero
| walk_step : forall u v W w,
    walk g start u W -> edge g u v = Some w -> walk g start v (add W w).

Definition reachable (g : Graph num) (start v : Key num) : Prop :=
  exists W, walk g start v W.

(** The total weight of a node sequence, [None] when two consecutive
    nodes are not joined by an edge. *)
Fixpoint weightFrom (g : Graph num) (cur : Key num) (acc : num) (rest : list (Key num))
  : option num :=
  match rest with
  | [] => Some acc
  | next :: rest' =>
      match edge g cur next with
      | Some w => weightFrom g next (add acc w) rest'
      | None => None
      end
  end.

Definition pathWeight (g : Graph num) (path : list (Coord num)) : option num :=
  match path with
  | [] => None
  | first :: rest => weightFrom g (JSON_stringify first) zero rest
  end.

(** Every two consecutive coordinates of [path] are joined by an edge. *)
Fixpoint followsEdges (g : Graph num) (path : list (Coord num)) : Prop :=
  match path with
  | a :: ((b :: _) as rest) =>
      edge g (JSON_stringify a) (JSON_stringify b) <> None /\
      followsEdges g rest
  | _ => True
  end.
End Vocabulary.

(** ** Invariants of the main loop of [dijkstra] *)

Section Invariants.
Context {num : Type} {N : Number num}.

(** What holds of the state of the main loop for every graph. *)
Record Sound (g : Graph num) (start : Key num) (st : DState num) : Prop := {
  sound_unvisited : forall v, In v (unvisited st) -> In v (keys g);
  sound_finite : forall v d,
    get Key_eq_dec (distances st) v = Some d -> d <> Infinity ->
    reachable g start v;
  sound_previous : forall v u,
    previousOf (previous st) v = Some u ->
    reachable g start v /\ get Key_eq_dec (distances st) v <> None;
  sound_domain : forall v,
    get Key_eq_dec (distances st) v <> None -> In v (keys g) \/ v = start;
  sound_untouched :
    (forall v, previousOf (previous st) v = None) \/ In start (keys g);
  sound_defined : forall v,
    In v (keys g) -> get Key_eq_dec (distances st) v <> None
}.

(** How the main loop can be left: the set of unvisited nodes is empty, or
    the selected node has distance [Infinity] or is the destination. *)
Definition exited (g : Graph num) (end_ : Key num) (st : DState num) : Prop :=
  unvisited st = [] \/
  exists first rest,
    unvisited st = first :: rest /\
    let current := selectMin (distances st) first rest in
    is_Infinity (get Key_eq_dec (distances st) current) = true \/
    current = end_.

(** [trail g start p v W]: [p] is the sequence of the nodes of a walk from
    [start] to [v] of total weight [W]. *)
Inductive trail (g : Graph num) (start : Key num)
  : list (Key num) -> Key num -> num -> Prop :=
| trail_start : trail g start [start] start zero
| trail_step : forall p u v W w,
    trail g start p u W -> edge g u v = Some w ->
    trail g start (p ++ [v]) v (add W w).

(** What holds of the state of the main loop when no weight is negative;
    [vis] lists the nodes removed from the set of unvisited nodes so far,
    the last one removed first. *)
Record Settled (g : Graph num) (start : Key num) (vis : list (Key num))
  (st : DState num) : Prop := {
  inv_nodup : NoDup vis;
  inv_nodes : forall v, In v (keys g) <-> In v vis \/ In v (unvisited st);
  inv_disjoint : forall v, In v vis -> ~ In v (unvisited st);
  inv_defined : forall v,
    In v (keys g) -> get Key_eq_dec (distances st) v <> None;
  inv_domain : forall v,
    get Key_eq_dec (distances st) v <> None -> In v (keys g) \/ v = start;
  inv_start : get Key_eq_dec (distances st) start = Some zero;
  inv_start_previous : previousOf (previous st) start = None;
  inv_nonneg : forall v d,
    get Key_eq_dec (distances st) v = Some d -> leq zero d;
  inv_first :
    (forall v, In v (keys g) -> v <> start ->
               get Key_eq_dec (distances st) v = Some Infinity) \/
    In start vis;
  inv_previous : forall v u,
    previousOf (previous st) v = Some u ->
    In u vis /\
    (exists du w,
        get Key_eq_dec (distances st) u = Some du /\
        edge g u v = Some w /\
        get Key_eq_dec (distances st) v = Some (add du w)) /\
    (forall l1 l2, vis = l1 ++ v :: l2 -> In u l2);
  inv_root : forall v,
    In v (keys g) -> previousOf (previous st) v = None ->
    v = start \/ get Key_eq_dec (distances st) v = Some Infinity;
  inv_finite : forall v,
    In v vis -> get Key_eq_dec (distances st) v <> Some Infinity;
  inv_optimal : forall v d W,
    In v vis -> get Key_eq_dec (distances st) v = Some d ->
    walk g start v W -> leq d W;
  inv_relaxed : forall u v du dv w,
    In u vis ->
    get Key_eq_dec (distances st) u = Some du ->
    edge g u v = Some w ->
    get Key_eq_dec (distances st) v = Some dv ->
    leq dv (add du w);
  inv_monotone : forall u v du dv,
    In u vis -> In v (unvisited st) ->
    get Key_eq_dec (distances st) u = Some du ->
    get Key_eq_dec (distances st) v = Some dv ->
    leq du dv
}.

(** Every predecessor link follows an edge of the graph. *)
Definition Linked (g : Graph num) (st : DState num) : Prop :=
  forall v u, previousOf (previous st) v = Some u -> edge g u v <> None.

(** A node that has a predecessor has a finite distance. *)
Definition Assigned (st : DState num) : Prop :=
  forall v u,
    previousOf (previous st) v = Some u ->
    exists d, get Key_eq_dec (distances st) v = Some d /\ d <> Infinity.

(** What holds of [nearest] and [minDistance] in [findNearestNode] once the
    keys [seen] have been scanned. *)
Definition scanned (distanceTo : Coord num -> Coord num -> num)
  (latlng : Coord num) (seen : list (Key num)) (acc : option (Key num) * num)
  : Prop :=
  let dist node := distanceTo latlng (JSON_parse node) in
  match fst acc with
  | None =>
      snd acc = Infinity /\
      forall m, In m seen -> ltb (dist m) Infinity = false
  | Some n =>
      snd acc = dist n /\
      exists pre post,
        seen = pre ++ n :: post /\
        (forall m, In m pre -> ltb (dist n) (dist m) = true) /\
        (forall m, In m post -> leq (dist n) (dist m))
  end.
End Invariants.

(** ** Concrete inputs *)

(** The functions are run on the integer grid, with the taxicab distance
    standing in for Leaflet's [distanceTo]. *)
Definition toZ (x : ZInf) : Z :=
  match x with
  | Fin z => z
  | Inf => 0%Z
  end.

Definition taxicab (a b : Coord ZInf) : ZInf :=
  Fin (Z.abs (toZ (fst b) - toZ (fst a)) + Z.abs (toZ (snd b) - toZ (snd a))).

Definition at_ (x y : Z) : Coord ZInf := (Fin x, Fin y).

(** The graph of the scenario of the specification: nodes A(0,0), B(0,1)
    and C(1,1), edges A-B of weight 10 and B-C of weight 5. *)
Definition scenarioGraph : Graph ZInf :=
  [ (at_ 0 0, [(at_ 0 1, Fin 10)]);
    (at_ 0 1, [(at_ 0 0, Fin 10); (at_ 1 1, Fin 5)]);
    (at_ 1 1, [(at_ 0 1, Fin 5)]) ].

(** Two roads that do not meet, in (longitude, latitude) order. *)
Definition twoRoads : list (RoadFeature ZInf) :=
  [ [at_ 0 0; at_ 1 0; at_ 1 1]; [at_ 5 5; at_ 6 6] ].

(** Two points of interest, in (longitude, latitude) order, and the state of
    the component once the scenario graph is loaded and [startName] and
    [endName] are selected. *)
Definition Gate : string := "Gate".
Definition Library : string := "Library".

Definition samplePoints : list (PointFeature ZInf) :=
  [ {| name := Gate; coordinates := at_ 0 0 |};
    {| name := Library; coordinates := at_ 1 1 |} ].

Definition sampleState (startName endName : option string) : State ZInf :=
  {| points := Some samplePoints;
     startPoint := startName;
     endPoint := endName;
     route := None;
     adjacencyList := scenarioGraph |}.

(** * Properties *)

Set Default Proof Using "Type".

(** ** Objects and sets *)

Section ObjectFacts.
Variable K : Type.
Variable K_eq_dec : forall a b : K, {a = b} + {a <> b}.

Section ObjFacts.
Variable V : Type.
Implicit Types (o : Obj K V) (k : K) (v : V).

Lemma get_set_eq o k v : get K_eq_dec (set K_eq_dec o k v) k = Some v.
Proof.
  induction o as [|[k' v'] o IH]; simpl.
  - destruct (K_eq_dec k k); congruence.
  - destruct (K_eq_dec k' k) as [E|N]; simpl.
    + destruct (K_eq_dec k' k); congruence.
    + destruct (K_eq_dec k' k); congruence.
Qed.

Lemma get_set_neq o k k' v :
  k <> k' -> get K_eq_dec (set K_eq_dec o k v) k' = get K_eq_dec o k'.
Proof.
  intros N. induction o as [|[k0 v0] o IH]; simpl.
  - destruct (K_eq_dec k k'); congruence.
  - destruct (K_eq_dec k0 k) as [E|N0]; simpl.
    + subst k0. destruct (K_eq_dec k k'); congruence.
    + destruct (K_eq_dec k0 k'); congruence.
Qed.

Lemma get_set o k k' v :
  get K_eq_dec (set K_eq_dec o k v) k' =
  if K_eq_dec k k' then Some v else get K_eq_dec o k'.
Proof.
  destruct (K_eq_dec k k') as [E|N].
  - subst. apply get_set_eq.
  - now apply get_set_neq.
Qed.

Lemma get_None_keys o k : get K_eq_dec o k = None <-> ~ In k (keys o).
Proof.
  induction o as [|[k' v'] o IH]; simpl.
  - tauto.
  - destruct (K_eq_dec k' k) as [E|N].
    + split; [discriminate | tauto].
    + rewrite IH. tauto.
Qed.

Lemma get_Some_keys o k v : get K_eq_dec o k = Some v -> In k (keys o).
Proof.
  intros G. destruct (in_dec K_eq_dec k (keys o)) as [I|N]; trivial.
  apply get_None_keys in N. congruence.
Qed.

Lemma keys_get o k : In k (keys o) -> exists v, get K_eq_dec o k = Some v.
Proof.
  intros I. destruct (get K_eq_dec o k) as [v|] eqn:G; eauto.
  apply get_None_keys in G. contradiction.
Qed.

Lemma get_In o k v : get K_eq_dec o k = Some v -> In (k, v) o.
Proof.
  induction o as [|[k' v'] o IH]; simpl; [discriminate|].
  destruct (K_eq_dec k' k); intros G.
  - left. congruence.
  - right. auto.
Qed.

Lemma keys_set_present o k v :
  In k (keys o) -> keys (set K_eq_dec o k v) = keys o.
Proof.
  induction o as [|[k' v'] o IH]; simpl; [tauto|].
  intros I. destruct (K_eq_dec k' k) as [E|N]; simpl; trivial.
  f_equal. apply IH. destruct I; congruence.
Qed.

Lemma keys_set_absent o k v :
  ~ In k (keys o) -> keys (set K_eq_dec o k v) = keys o ++ [k].
Proof.
  induction o as [|[k' v'] o IH]; simpl; trivial.
  intros I. destruct (K_eq_dec k' k) as [E|N]; simpl.
  - tauto.
  - f_equal. apply IH. tauto.
Qed.

Lemma In_keys_set o k k' v :
  In k' (keys (set K_eq_dec o k v)) <-> k' = k \/ In k' (keys o).
Proof.
  destruct (in_dec K_eq_dec k (keys o)) as [I|N].
  - rewrite keys_set_present by trivial. split; [tauto|].
    intros [E|I']; congruence.
  - rewrite keys_set_absent by trivial. rewrite in_app_iff. simpl.
    intuition (subst; auto).
Qed.

Lemma NoDup_keys_set o k v :
  NoDup (keys o) -> NoDup (keys (set K_eq_dec o k v)).
Proof.
  intros ND. destruct (in_dec K_eq_dec k (keys o)) as [I|N].
  - now rewrite keys_set_present.
  - rewrite keys_set_absent by trivial.
    apply NoDup_app; repeat split; trivial.
    + constructor; [simpl; tauto | constructor].
    + intros x Hx [E|[]]. subst. contradiction.
Qed.
End ObjFacts.

Lemma In_Set_add s k x : In x (Set_add K_eq_dec s k) <-> x = k \/ In x s.
Proof.
  unfold Set_add. destruct (in_dec K_eq_dec k s) as [I|N].
  - split; [tauto|]. intros [E|I']; congruence.
  - rewrite in_app_iff. simpl. intuition (subst; auto).
Qed.

Lemma NoDup_Set_add s k : NoDup s -> NoDup (Set_add K_eq_dec s k).
Proof.
  intros ND. unfold Set_add. destruct (in_dec K_eq_dec k s) as [I|N]; trivial.
  apply NoDup_app; repeat split; trivial.
  - constructor; [simpl; tauto | constructor].
  - intros x Hx [E|[]]. subst. contradiction.
Qed.

Lemma length_Set_add s k : length (Set_add K_eq_dec s k) <= S (length s).
Proof.
  unfold Set_add. destruct (in_dec K_eq_dec k s); [lia|].
  rewrite length_app. simpl. lia.
Qed.

Lemma new_Set_spec l :
  (forall x, In x (new_Set K_eq_dec l) <-> In x l) /\
  NoDup (new_Set K_eq_dec l) /\
  length (new_Set K_eq_dec l) <= length l.
Proof.
  unfold new_Set.
  assert (G : forall s, NoDup s ->
    (forall x, In x (fold_left (Set_add K_eq_dec) l s) <-> In x s \/ In x l) /\
    NoDup (fold_left (Set_add K_eq_dec) l s) /\
    length (fold_left (Set_add K_eq_dec) l s) <= length s + length l).
  { induction l as [|k l IH]; intros s ND; simpl.
    - repeat split; trivial; try tauto; lia.
    - destruct (IH (Set_add K_eq_dec s k) (NoDup_Set_add k ND)) as (A & B & C).
      repeat split; trivial.
      + intros I. apply A in I. rewrite In_Set_add in I. intuition.
      + intros I. apply A. rewrite In_Set_add. intuition.
      + pose proof (length_Set_add s k). lia. }
  destruct (G [] (NoDup_nil _)) as (A & B & C).
  repeat split; trivial.
  - intros I. apply A in I. simpl in I. tauto.
  - intros I. apply A. auto.
Qed.

Lemma In_Set_delete s k x : In x (Set_delete K_eq_dec s k) <-> In x s /\ x <> k.
Proof.
  unfold Set_delete. split.
  - intros I. apply in_remove in I. tauto.
  - intros [I N]. now apply in_in_remove.
Qed.

Lemma length_Set_delete s k :
  In k s -> length (Set_delete K_eq_dec s k) < length s.
Proof.
  apply remove_length_lt.
Qed.

Lemma NoDup_Set_delete s k : NoDup s -> NoDup (Set_delete K_eq_dec s k).
Proof.
  intros ND. unfold Set_delete. induction ND as [|x s NI ND IH]; simpl.
  - constructor.
  - destruct (K_eq_dec k x); trivial.
    constructor; trivial. intros I. apply in_remove in I. tauto.
Qed.
End ObjectFacts.

(** ** The graph builder *)

Section GraphFacts.
Context {num : Type} `{Number num}.

Implicit Types (g : Graph num) (a b k : Key num).

Lemma edge_ensureNode g k a b : edge (ensureNode g k) a b = edge g a b.
Proof.
  unfold ensureNode, edge.
  destruct (get Key_eq_dec g k) eqn:G; trivial.
  rewrite get_set. destruct (Key_eq_dec k a) as [E|N]; trivial.
  subst. now rewrite G.
Qed.

Lemma keys_ensureNode g k a :
  In a (keys (ensureNode g k)) <-> a = k \/ In a (keys g).
Proof.
  unfold ensureNode. destruct (get Key_eq_dec g k) eqn:G.
  - apply get_Some_keys in G. split; [tauto|]. intros [E|I]; congruence.
  - apply In_keys_set.
Qed.

Lemma NoDup_ensureNode g k :
  noParallelEdges g -> noParallelEdges (ensureNode g k).
Proof.
  intros [ND A]. unfold ensureNode.
  destruct (get Key_eq_dec g k) eqn:G; [split; trivial|].
  split.
  - now apply NoDup_keys_set.
  - intros a adj. rewrite get_set. destruct (Key_eq_dec k a).
    + intros E. injection E as <-. constructor.
    + apply A.
Qed.

Lemma edge_setEdge g k1 k2 d a b :
  In k1 (keys g) ->
  edge (setEdge g k1 k2 d) a b =
  if Key_eq_dec k1 a then
    if Key_eq_dec k2 b then Some d else edge g a b
  else edge g a b.
Proof.
  intros I. apply (keys_get Key_eq_dec) in I. destruct I as [adj G].
  unfold setEdge, edge. rewrite G, get_set.
  destruct (Key_eq_dec k1 a) as [E|N]; trivial.
  subst. rewrite G, get_set. trivial.
Qed.

Lemma keys_setEdge g k1 k2 d : keys (setEdge g k1 k2 d) = keys g.
Proof.
  unfold setEdge. destruct (get Key_eq_dec g k1) eqn:G; trivial.
  apply keys_set_present. eapply get_Some_keys; eauto.
Qed.

Lemma NoDup_setEdge g k1 k2 d :
  noParallelEdges g -> noParallelEdges (setEdge g k1 k2 d).
Proof.
  intros [ND A]. split.
  - now rewrite keys_setEdge.
  - unfold setEdge. destruct (get Key_eq_dec g k1) eqn:G; trivial.
    intros a adj. rewrite get_set. destruct (Key_eq_dec k1 a).
    + intros E. injection E as <-. apply NoDup_keys_set. eauto.
    + apply A.
Qed.

Lemma joins_dec (s : Coord num * Coord num) a b :
  {joins s a b} + {~ joins s a b}.
Proof using H.
  unfold joins, JSON_stringify.
  destruct (Key_eq_dec (fst s) a), (Key_eq_dec (snd s) b),
    (Key_eq_dec (fst s) b), (Key_eq_dec (snd s) a); tauto.
Qed.

Lemma joins_sym s a b : joins s a b -> joins s b a.
Proof.
  intros [J|J]; [right | left]; exact J.
Qed.

Lemma edge_empty a b : edge ([] : Graph num) a b = None.
Proof.
  reflexivity.
Qed.

Lemma segments_In (A : Type) (coords : list A) c1 c2 :
  In (c1, c2) (segments coords) -> In c1 coords /\ In c2 coords.
Proof.
  induction coords as [|x [|y rest] IH]; simpl; try tauto.
  intros [E|I].
  - injection E as <- <-. auto.
  - apply IH in I. simpl in I. tauto.
Qed.

Lemma segments_map (A B : Type) (f : A -> B) (coords : list A) :
  segments (map f coords) =
  map (fun s => (f (fst s), f (snd s))) (segments coords).
Proof.
  induction coords as [|x [|y rest] IH]; trivial.
  change (segments (map f (x :: y :: rest)))
    with ((f x, f y) :: segments (map f (y :: rest))).
  rewrite IH. reflexivity.
Qed.

Lemma roadSegments_source (roads : list (RoadFeature num)) s :
  In s (roadSegments roads) ->
  exists road (p q : Position num),
    In road roads /\ In (p, q) (segments road) /\
    s = (transpose p, transpose q).
Proof.
  unfold roadSegments. rewrite in_flat_map. intros (road & I & J).
  rewrite segments_map, in_map_iff in J. destruct J as ([p q] & E & J).
  exists road, p, q. simpl in E. auto.
Qed.

Lemma transpose_injective (p q : Position num) :
  transpose p = transpose q -> p = q.
Proof.
  destruct p, q. simpl. congruence.
Qed.

End GraphFacts.

Section BuilderFacts.
Context {num : Type} `{Number num}.
Variable distanceTo : Coord num -> Coord num -> num.

Implicit Types (g : Graph num) (a b k : Key num).

Lemma keys_addSegment g c1 c2 a :
  In a (keys (addSegment distanceTo g c1 c2)) <->
  a = c1 \/ a = c2 \/ In a (keys g).
Proof.
  unfold addSegment, JSON_stringify.
  rewrite !keys_setEdge, !keys_ensureNode. tauto.
Qed.

Lemma edge_addSegment g c1 c2 a b :
  edge (addSegment distanceTo g c1 c2) a b =
  if Key_eq_dec c1 a then
    if Key_eq_dec c2 b then Some (distanceTo c1 c2)
    else if Key_eq_dec c2 a then
      if Key_eq_dec c1 b then Some (distanceTo c1 c2) else edge g a b
    else edge g a b
  else if Key_eq_dec c2 a then
    if Key_eq_dec c1 b then Some (distanceTo c1 c2) else edge g a b
  else edge g a b.
Proof.
  unfold addSegment, JSON_stringify.
  rewrite edge_setEdge
    by (rewrite keys_setEdge, !keys_ensureNode; auto).
  rewrite edge_setEdge by (rewrite !keys_ensureNode; auto).
  rewrite !edge_ensureNode.
  destruct (Key_eq_dec c1 a), (Key_eq_dec c2 b),
    (Key_eq_dec c2 a), (Key_eq_dec c1 b); trivial; congruence.
Qed.

Lemma edge_addSegment_joins g c1 c2 a b :
  joins (c1, c2) a b ->
  edge (addSegment distanceTo g c1 c2) a b = Some (distanceTo c1 c2).
Proof.
  unfold joins, JSON_stringify. simpl. intros J. rewrite edge_addSegment.
  destruct (Key_eq_dec c1 a), (Key_eq_dec c2 b),
    (Key_eq_dec c2 a), (Key_eq_dec c1 b); trivial;
    exfalso; intuition congruence.
Qed.

Lemma edge_addSegment_other g c1 c2 a b :
  ~ joins (c1, c2) a b ->
  edge (addSegment distanceTo g c1 c2) a b = edge g a b.
Proof.
  unfold joins, JSON_stringify. simpl. intros J. rewrite edge_addSegment.
  destruct (Key_eq_dec c1 a), (Key_eq_dec c2 b),
    (Key_eq_dec c2 a), (Key_eq_dec c1 b); trivial;
    exfalso; intuition congruence.
Qed.

Lemma NoDup_addSegment g c1 c2 :
  noParallelEdges g -> noParallelEdges (addSegment distanceTo g c1 c2).
Proof.
  intros ND. unfold addSegment.
  now repeat first [apply NoDup_setEdge | apply NoDup_ensureNode].
Qed.

Lemma forSegments_insertAll coords : forall g,
  forSegments distanceTo g coords = insertAll distanceTo g (segments coords).
Proof.
  induction coords as [|c1 [|c2 rest] IH]; intros g; trivial.
  change (forSegments distanceTo g (c1 :: c2 :: rest))
    with (forSegments distanceTo (addSegment distanceTo g c1 c2) (c2 :: rest)).
  rewrite IH. reflexivity.
Qed.

Lemma build_insertAll_from roads : forall g,
  fold_left
    (fun graph road => forSegments distanceTo graph (map transpose road))
    roads g
  = insertAll distanceTo g (roadSegments roads).
Proof.
  induction roads as [|road roads IH]; intros g; simpl; trivial.
  rewrite IH, forSegments_insertAll. unfold insertAll.
  now rewrite fold_left_app.
Qed.

Lemma build_insertAll roads :
  buildAdjacencyList distanceTo roads = insertAll distanceTo [] (roadSegments roads).
Proof.
  apply build_insertAll_from.
Qed.

Lemma insertAll_app g l1 l2 :
  insertAll distanceTo g (l1 ++ l2) = insertAll distanceTo (insertAll distanceTo g l1) l2.
Proof.
  apply fold_left_app.
Qed.

Lemma edge_insertAll_other segs a b : forall g,
  (forall s, In s segs -> ~ joins s a b) ->
  edge (insertAll distanceTo g segs) a b = edge g a b.
Proof.
  induction segs as [|[c1 c2] segs IH]; intros g N; trivial.
  simpl. rewrite IH by (intros s I; apply N; now right).
  apply edge_addSegment_other. apply N. now left.
Qed.

Lemma noParallelEdges_insertAll segs : forall g,
  noParallelEdges g -> noParallelEdges (insertAll distanceTo g segs).
Proof.
  induction segs as [|[c1 c2] segs IH]; intros g ND; trivial.
  simpl. apply IH. now apply NoDup_addSegment.
Qed.

Lemma symmetric_insertAll segs : forall g,
  (forall a b, edge g a b = edge g b a) ->
  forall a b, edge (insertAll distanceTo g segs) a b = edge (insertAll distanceTo g segs) b a.
Proof.
  induction segs as [|[c1 c2] segs IH]; intros g S; trivial.
  simpl. apply IH. intros a b. rewrite !edge_addSegment, (S a b).
  destruct (Key_eq_dec c1 a), (Key_eq_dec c2 b),
    (Key_eq_dec c2 a), (Key_eq_dec c1 b); trivial; congruence.
Qed.
End BuilderFacts.

Section BuilderTheorems.
Context {num : Type} `{Number num}.
Variable distanceTo : Coord num -> Coord num -> num.

Implicit Types (g : Graph num) (a b k : Key num).

Lemma keys_insertAll segs : forall g k,
  In k (keys (insertAll distanceTo g segs)) ->
  In k (keys g) \/
  exists s, In s segs /\ (k = JSON_stringify (fst s) \/ k = JSON_stringify (snd s)).
Proof.
  induction segs as [|[c1 c2] segs IH]; intros g k I; [now left|].
  simpl in I. apply IH in I. destruct I as [I|(s & I & E)].
  - apply keys_addSegment in I. destruct I as [E|[E|I]]; [| |now left].
    + right. exists (c1, c2). simpl. auto.
    + right. exists (c1, c2). simpl. auto.
  - right. exists s. simpl. auto.
Qed.

Lemma edge_insertAll_origin segs : forall g a b w,
  edge (insertAll distanceTo g segs) a b = Some w ->
  edge g a b = Some w \/
  exists s, In s segs /\ joins s a b /\ w = distanceTo (fst s) (snd s).
Proof.
  induction segs as [|[c1 c2] segs IH]; intros g a b w E; [now left|].
  simpl in E. apply IH in E. destruct E as [E|(s & I & J & E)].
  - destruct (joins_dec (c1, c2) a b) as [J|J].
    + rewrite edge_addSegment_joins in E by trivial.
      right. exists (c1, c2). simpl. split; [auto|]. split; congruence.
    + rewrite edge_addSegment_other in E by trivial. now left.
  - right. exists s. simpl. auto.
Qed.

(** C3. The graph built from any sequence of road features is symmetric:
    whenever the adjacency map of [a] holds [b] with weight [w], the
    adjacency map of [b] holds [a] with the same weight [w]. *)
Theorem buildAdjacencyList_symmetric :
  forall (roads : list (RoadFeature num)) a b w,
    edge (buildAdjacencyList distanceTo roads) a b = Some w ->
    edge (buildAdjacencyList distanceTo roads) b a = Some w.
Proof.
  intros roads a b w E. rewrite build_insertAll in *.
  rewrite <- E. apply symmetric_insertAll. intros x y. reflexivity.
Qed.

(** C4 (as amended). When no road feature has the same coordinate at two
    consecutive positions, the graph built from the features has no
    self-loop: no adjacency map holds its own node as a neighbour. *)
Theorem buildAdjacencyList_no_self_loop :
  forall (roads : list (RoadFeature num)),
    (forall c1 c2, In (c1, c2) (roadSegments roads) ->
                   JSON_stringify c1 <> JSON_stringify c2) ->
    forall a, edge (buildAdjacencyList distanceTo roads) a a = None.
Proof.
  intros roads N a. rewrite build_insertAll.
  rewrite edge_insertAll_other; [apply edge_empty|].
  intros [c1 c2] I J. apply (N c1 c2 I).
  unfold joins in J. simpl in J. destruct J as [[-> ->]|[-> ->]]; reflexivity.
Qed.

(** C7. Inserting a segment between the same two endpoints again, in either
    orientation, overwrites the stored weight: the weight stored between
    [a] and [b], in both adjacency maps, is the distance computed for the
    last segment of the input that joins them; no adjacency map lists a
    neighbour twice; and the two features [[p, q]] and [[q, p]] give a graph
    of exactly two nodes joined by one edge in both directions, weighted by
    the distance of the segment. *)
Theorem buildAdjacencyList_last_write_wins :
  forall (roads : list (RoadFeature num)),
    noParallelEdges (buildAdjacencyList distanceTo roads) /\
    (forall pre s post a b,
        roadSegments roads = pre ++ s :: post ->
        joins s a b ->
        (forall s', In s' post -> ~ joins s' a b) ->
        edge (buildAdjacencyList distanceTo roads) a b
          = Some (distanceTo (fst s) (snd s)) /\
        edge (buildAdjacencyList distanceTo roads) b a
          = Some (distanceTo (fst s) (snd s))) /\
    (forall p q : Position num,
        p <> q ->
        buildAdjacencyList distanceTo [[p; q]; [q; p]] =
        [ (JSON_stringify (transpose p),
            [(JSON_stringify (transpose q),
               distanceTo (transpose q) (transpose p))]);
          (JSON_stringify (transpose q),
            [(JSON_stringify (transpose p),
               distanceTo (transpose q) (transpose p))]) ]).
Proof.
  intros roads. split; [|split].
  - rewrite build_insertAll. apply noParallelEdges_insertAll.
    split; [constructor | discriminate].
  - intros pre [c1 c2] post a b E J N. rewrite build_insertAll, E.
    rewrite insertAll_app. simpl.
    split.
    + rewrite edge_insertAll_other by trivial.
      now apply edge_addSegment_joins.
    + rewrite edge_insertAll_other
        by (intros s' I J'; apply (N s' I); now apply joins_sym).
      apply edge_addSegment_joins. now apply joins_sym.
  - intros p q N.
    assert (N' : transpose p <> transpose q)
      by (intros E; apply N; now apply transpose_injective).
    unfold buildAdjacencyList, JSON_stringify. simpl.
    generalize dependent (transpose p). generalize dependent (transpose q).
    intros y x N'.
    unfold addSegment, ensureNode, setEdge, JSON_stringify. simpl.
    repeat (destruct (Key_eq_dec _ _); simpl; try congruence).
    reflexivity.
Qed.

(** Every node key of the built graph is the key of a transposed source
    position, and every stored weight is the distance between two
    transposed consecutive source positions. *)
Lemma buildAdjacencyList_transposed :
  forall (roads : list (RoadFeature num)),
    (forall k, In k (keys (buildAdjacencyList distanceTo roads)) ->
       exists road p,
         In road roads /\ In p road /\ k = JSON_stringify (transpose p)) /\
    (forall a b w, edge (buildAdjacencyList distanceTo roads) a b = Some w ->
       exists road (p q : Position num),
         In road roads /\ In (p, q) (segments road) /\
         joins (transpose p, transpose q) a b /\
         w = distanceTo (transpose p) (transpose q)).
Proof.
  intros roads. rewrite build_insertAll. split.
  - intros k I. apply keys_insertAll in I. destruct I as [[]|(s & I & E)].
    apply roadSegments_source in I. destruct I as (road & p & q & I & J & ->).
    apply segments_In in J. simpl in E.
    destruct E as [->| ->]; [exists road, p | exists road, q]; tauto.
  - intros a b w E. apply edge_insertAll_origin in E.
    destruct E as [E|(s & I & J & ->)]; [discriminate|].
    apply roadSegments_source in I. destruct I as (road & p & q & I & J' & ->).
    exists road, p, q. auto.
Qed.
End BuilderTheorems.

Lemma buildAdjacencyList_symmetric_witness :
  edge (buildAdjacencyList taxicab twoRoads) (at_ 0 0) (at_ 0 1) = Some (Fin 1) /\
  edge (buildAdjacencyList taxicab twoRoads) (at_ 0 1) (at_ 0 0) = Some (Fin 1).
Proof.
  split.
  - reflexivity.
  - apply (buildAdjacencyList_symmetric taxicab twoRoads). reflexivity.
Defined.

(** C4 (as stated) fails: a feature that repeats a coordinate at two
    consecutive positions makes the node its own neighbour. *)
Lemma buildAdjacencyList_self_loop :
  edge (buildAdjacencyList taxicab [[at_ 0 0; at_ 0 0]]) (at_ 0 0) (at_ 0 0)
  = Some (Fin 0).
Proof.
  reflexivity.
Qed.

Lemma buildAdjacencyList_no_self_loop_witness :
  (forall c1 c2, In (c1, c2) (roadSegments twoRoads) ->
                 JSON_stringify c1 <> JSON_stringify c2) /\
  edge (buildAdjacencyList taxicab twoRoads) (at_ 0 1) (at_ 0 1) = None.
Proof.
  assert (N : forall c1 c2, In (c1, c2) (roadSegments twoRoads) ->
                            JSON_stringify c1 <> JSON_stringify c2).
  { simpl. intros c1 c2 [E|[E|[E|[]]]]; injection E as <- <-; discriminate. }
  split.
  - exact N.
  - apply (buildAdjacencyList_no_self_loop taxicab twoRoads N).
Defined.

Lemma buildAdjacencyList_last_write_wins_witness :
  edge (buildAdjacencyList taxicab [[at_ 0 0; at_ 1 0]; [at_ 1 0; at_ 0 0]])
    (at_ 0 0) (at_ 0 1) = Some (Fin 1) /\
  buildAdjacencyList taxicab [[at_ 0 0; at_ 1 0]; [at_ 1 0; at_ 0 0]] =
  [ (at_ 0 0, [(at_ 0 1, Fin 1)]); (at_ 0 1, [(at_ 0 0, Fin 1)]) ].
Proof.
  pose proof (buildAdjacencyList_last_write_wins taxicab
                [[at_ 0 0; at_ 1 0]; [at_ 1 0; at_ 0 0]]) as (_ & Last & Two).
  split.
  - apply (Last [(at_ 0 0, at_ 0 1)] (at_ 0 1, at_ 0 0) [] (at_ 0 0) (at_ 0 1)).
    + reflexivity.
    + right. split; reflexivity.
    + intros s' [].
  - apply (Two (at_ 0 0) (at_ 1 0)). discriminate.
Defined.

(** ** The order on numbers *)

#[export] Instance ZInf_NumberLaws : NumberLaws ZInf.
Proof.
  split.
  - intros [x|]; simpl; trivial. apply Z.ltb_irrefl.
  - intros [x|] [y|] [z|]; simpl; trivial; try discriminate.
    rewrite !Z.ltb_lt. lia.
  - intros [x|] [y|]; simpl; trivial; try discriminate.
    rewrite !Z.ltb_ge. intros. f_equal. lia.
  - unfold leq. intros [x|] [y|] [w|]; simpl; trivial; try discriminate.
    rewrite !Z.ltb_ge. lia.
  - unfold leq. intros [x|] [w|]; simpl; trivial.
    rewrite !Z.ltb_ge. lia.
  - unfold leq. intros [x|]; reflexivity.
  - reflexivity.
Qed.

Section OrderFacts.
Context {num : Type} {N : Number num} {Laws : NumberLaws num}.

Implicit Types x y z : num.

Lemma leq_refl x : leq x x.
Proof using Laws.
  apply ltb_irrefl.
Qed.

Lemma lt_leq x y : ltb x y = true -> leq x y.
Proof using Laws.
  intros L. unfold leq. destruct (ltb y x) eqn:G; trivial.
  pose proof (ltb_trans _ _ _ L G) as T. rewrite ltb_irrefl in T. discriminate.
Qed.

Lemma leq_trans x y z : leq x y -> leq y z -> leq x z.
Proof using Laws.
  unfold leq. intros A B. destruct (ltb z x) eqn:G; trivial.
  destruct (ltb x y) eqn:C.
  - pose proof (ltb_trans _ _ _ G C). congruence.
  - assert (x = y) by now apply ltb_connected. congruence.
Qed.

Lemma leq_antisym x y : leq x y -> leq y x -> x = y.
Proof using Laws.
  unfold leq. intros A B. now apply ltb_connected.
Qed.

Lemma lt_leq_trans x y z : ltb x y = true -> leq y z -> ltb x z = true.
Proof using Laws.
  unfold leq. intros A B. destruct (ltb y z) eqn:C.
  - eapply ltb_trans; eauto.
  - assert (y = z) by now apply ltb_connected. congruence.
Qed.

Lemma leq_lt_trans x y z : leq x y -> ltb y z = true -> ltb x z = true.
Proof using Laws.
  unfold leq. intros A B. destruct (ltb x y) eqn:C.
  - eapply ltb_trans; eauto.
  - assert (x = y) by now apply ltb_connected. congruence.
Qed.

Lemma leq_total x y : leq x y \/ leq y x.
Proof using Laws.
  unfold leq. destruct (ltb y x) eqn:A; [right | now left].
  now apply lt_leq.
Qed.

Lemma lt_not_Infinity x y : ltb x y = true -> x <> Infinity.
Proof using Laws.
  intros A ->. pose proof (Infinity_greatest y) as B. unfold leq in B. congruence.
Qed.

Lemma Infinity_leq x : leq Infinity x -> x = Infinity.
Proof using Laws.
  intros A. apply leq_antisym; trivial. apply Infinity_greatest.
Qed.

Lemma zero_leq_add x w : leq zero x -> leq zero w -> leq zero (add x w).
Proof using Laws.
  intros A B. eapply leq_trans; [exact A|]. now apply add_increasing.
Qed.
End OrderFacts.

(** ** The nearest-node resolver *)

Section NearestFacts.
Context {num : Type} {N : Number num} {Laws : NumberLaws num}.
Variable distanceTo : Coord num -> Coord num -> num.
Variable latlng : Coord num.

Lemma scanned_step seen acc node :
  scanned distanceTo latlng seen acc ->
  scanned distanceTo latlng (seen ++ [node]) (nearer distanceTo latlng acc node).
Proof using Laws.
  destruct acc as [[n|] minDistance]; unfold scanned, nearer; simpl.
  - intros (-> & pre & post & -> & Pre & Post).
    destruct (ltb (distanceTo latlng (JSON_parse node))
                  (distanceTo latlng (JSON_parse n))) eqn:C; simpl.
    + split; trivial. exists (pre ++ n :: post), []. split; [trivial|].
      split; [|intros m []].
      intros m I. apply in_app_iff in I. destruct I as [I|[<-|I]]; trivial.
      * eapply ltb_trans; eauto.
      * eapply lt_leq_trans; eauto.
    + split; trivial. exists pre, (post ++ [node]).
      rewrite <- app_assoc. split; [trivial|]. split; trivial.
      intros m I. apply in_app_iff in I. destruct I as [I|[<-|[]]]; auto.
  - intros (-> & Far).
    destruct (ltb (distanceTo latlng (JSON_parse node)) Infinity) eqn:C; simpl.
    + split; trivial. exists seen, []. split; [trivial|].
      split; [|intros m []].
      intros m I. eapply lt_leq_trans; [exact C|]. apply Far, I.
    + split; trivial. intros m I. apply in_app_iff in I.
      destruct I as [I|[<-|[]]]; auto.
Qed.

Lemma scanned_all nodes : forall seen acc,
  scanned distanceTo latlng seen acc ->
  scanned distanceTo latlng (seen ++ nodes)
    (fold_left (nearer distanceTo latlng) nodes acc).
Proof using Laws.
  induction nodes as [|node nodes IH]; intros seen acc S; simpl.
  - now rewrite app_nil_r.
  - replace (seen ++ node :: nodes) with ((seen ++ [node]) ++ nodes)
      by now rewrite <- app_assoc.
    apply IH. now apply scanned_step.
Qed.

Lemma findNearestNode_scanned (g : Graph num) :
  exists minDistance,
    scanned distanceTo latlng (keys g)
      (findNearestNode distanceTo g latlng, minDistance).
Proof using Laws.
  assert (S : scanned distanceTo latlng (keys g)
                (fold_left (nearer distanceTo latlng) (keys g) (None, Infinity))).
  { apply (@scanned_all (keys g) [] (None, Infinity)).
    split; [reflexivity | intros m []]. }
  exists (snd (fold_left (nearer distanceTo latlng) (keys g) (None, Infinity))).
  exact S.
Qed.

(** C5. [findNearestNode] returns none for a graph without nodes and,
    when the distance to every node is a finite number, for no other graph;
    a node it returns is a node of the graph whose distance to the target
    is least among all nodes, and every node that comes before it in the
    iteration order of the node set is strictly farther from the target. *)
Theorem findNearestNode_nearest :
  forall (g : Graph num),
    ((forall node, In node (keys g) ->
        ltb (distanceTo latlng (JSON_parse node)) Infinity = true) ->
     (findNearestNode distanceTo g latlng = None <-> keys g = [])) /\
    (forall n, findNearestNode distanceTo g latlng = Some n ->
       In n (keys g) /\
       (forall m, In m (keys g) ->
          leq (distanceTo latlng (JSON_parse n))
             (distanceTo latlng (JSON_parse m))) /\
       exists pre post,
         keys g = pre ++ n :: post /\
         forall m, In m pre ->
           ltb (distanceTo latlng (JSON_parse n))
               (distanceTo latlng (JSON_parse m)) = true).
Proof using Laws.
  intros g. destruct (findNearestNode_scanned g) as [minDistance S].
  unfold scanned in S. simpl in S. split.
  - intros Finite. split.
    + intros E. rewrite E in S. destruct S as [_ Far].
      destruct (keys g) as [|m nodes]; trivial.
      specialize (Far m (or_introl eq_refl)).
      rewrite Finite in Far by now left. discriminate.
    + intros E. destruct (findNearestNode distanceTo g latlng) as [n|]; trivial.
      destruct S as (_ & pre & post & E' & _). rewrite E in E'.
      now destruct pre.
  - intros n E. rewrite E in S. destruct S as (_ & pre & post & E' & Pre & Post).
    rewrite E'. split; [|split].
    + apply in_app_iff. right. now left.
    + intros m I. apply in_app_iff in I. destruct I as [I|[<-|I]].
      * apply lt_leq. now apply Pre.
      * apply leq_refl.
      * now apply Post.
    + exists pre, post. split; trivial.
Qed.
End NearestFacts.

(** ** The shortest-path engine: facts that hold of every graph *)

Section DijkstraFacts.
Context {num : Type} {N : Number num}.

Implicit Types (g : Graph num) (start v u c : Key num) (st : DState num).
Implicit Types (D : Obj (Key num) num) (P : Obj (Key num) (option (Key num))).

Lemma initFold_get (l : list (Key num)) : forall D0 P0 v,
  let DP :=
    fold_left
      (fun (dp : Obj (Key num) num * Obj (Key num) (option (Key num))) node =>
         (set Key_eq_dec (fst dp) node Infinity,
          set Key_eq_dec (snd dp) node None))
      l (D0, P0) in
  get Key_eq_dec (fst DP) v
    = (if in_dec Key_eq_dec v l then Some Infinity else get Key_eq_dec D0 v) /\
  get Key_eq_dec (snd DP) v
    = (if in_dec Key_eq_dec v l then Some None else get Key_eq_dec P0 v).
Proof.
  induction l as [|k l IH]; intros D0 P0 v; simpl; [auto|].
  destruct (IH (set Key_eq_dec D0 k Infinity) (set Key_eq_dec P0 k None) v)
    as [A B].
  simpl in A, B. rewrite A, B, !get_set.
  destruct (Key_eq_dec k v) as [E|NE], (in_dec Key_eq_dec v l); auto.
Qed.

Lemma init_distances g start v :
  get Key_eq_dec (distances (initState g start)) v =
  if Key_eq_dec start v then Some zero
  else if in_dec Key_eq_dec v (keys g) then Some Infinity else None.
Proof.
  unfold initState. set (DP := fold_left _ (keys g) _).
  assert (A : get Key_eq_dec (fst DP) v =
              if in_dec Key_eq_dec v (keys g) then Some Infinity else None)
    by apply (initFold_get (keys g) [] [] v).
  clearbody DP. destruct DP as [D P]. simpl in *.
  rewrite get_set, A. reflexivity.
Qed.

Lemma init_previous g start v :
  previousOf (previous (initState g start)) v = None.
Proof.
  unfold initState, previousOf. set (DP := fold_left _ (keys g) _).
  assert (B : get Key_eq_dec (snd DP) v =
              if in_dec Key_eq_dec v (keys g) then Some None else None)
    by apply (initFold_get (keys g) [] [] v).
  clearbody DP. destruct DP as [D P]. simpl in *.
  rewrite B. now destruct (in_dec Key_eq_dec v (keys g)).
Qed.

Lemma init_unvisited g start :
  unvisited (initState g start) = new_Set Key_eq_dec (keys g).
Proof.
  unfold initState. set (DP := fold_left _ (keys g) _).
  clearbody DP. now destruct DP.
Qed.

Lemma selectMin_In D (rest : list (Key num)) : forall first,
  In (selectMin D first rest) (first :: rest).
Proof.
  unfold selectMin. induction rest as [|x rest IH]; intros first; simpl.
  - now left.
  - destruct (lt_js _ _).
    + right. apply IH.
    + destruct (IH first) as [E|I]; [now left | right; now right].
Qed.

Lemma is_Infinity_true (a : option num) :
  is_Infinity a = true <-> a = Some Infinity.
Proof.
  destruct a as [x|]; simpl.
  - destruct (num_eq_dec x Infinity); split; congruence.
  - split; discriminate.
Qed.

Lemma relaxNeighbor_cases (adj : Obj (Key num) num) c D P n :
  relaxNeighbor adj c (D, P) n = (D, P) \/
  exists dc w dn,
    get Key_eq_dec D c = Some dc /\
    get Key_eq_dec adj n = Some w /\
    get Key_eq_dec D n = Some dn /\
    ltb (add dc w) dn = true /\
    relaxNeighbor adj c (D, P) n =
    (set Key_eq_dec D n (add dc w), set Key_eq_dec P n (Some c)).
Proof.
  unfold relaxNeighbor.
  destruct (get Key_eq_dec D c) as [dc|]; [|now left].
  destruct (get Key_eq_dec adj n) as [w|]; [|now left].
  destruct (get Key_eq_dec D n) as [dn|]; [|now left].
  simpl. destruct (ltb (add dc w) dn) eqn:L; [|now left].
  right. exists dc, w, dn. auto.
Qed.

(** Relaxing the neighbours in [ns] changes the entries of neighbours
    only, and only entries that exist already. *)
Lemma relax_changes (adj : Obj (Key num) num) c (ns : list (Key num)) :
  forall D P D' P',
    fold_left (relaxNeighbor adj c) ns (D, P) = (D', P') ->
    forall v,
      (get Key_eq_dec D' v = get Key_eq_dec D v /\
       get Key_eq_dec P' v = get Key_eq_dec P v) \/
      (In v ns /\ get Key_eq_dec adj v <> None /\
       get Key_eq_dec D v <> None /\ get Key_eq_dec D' v <> None).
Proof.
  induction ns as [|n ns IH]; intros D P D' P' F v; cbn [fold_left] in F.
  - injection F as <- <-. now left.
  - destruct (relaxNeighbor_cases adj c D P n)
      as [E|(dc & w & dn & Gc & Ga & Gn & L & E)]; rewrite E in F.
    + destruct (IH _ _ _ _ F v) as [A|(A & B)]; [now left|].
      right. split; [now right | trivial].
    + destruct (IH _ _ _ _ F v) as [[A B]|(A & B & C & C')].
      * rewrite get_set in A, B. destruct (Key_eq_dec n v) as [<-|NE].
        -- right. repeat split; try congruence. now left.
        -- now left.
      * right. rewrite get_set in C. repeat split; trivial; [now right|].
        destruct (Key_eq_dec n v) as [<-|NE]; congruence.
Qed.

Lemma walk_leaves_start g start v W :
  walk g start v W -> v = start \/ In start (keys g).
Proof.
  induction 1 as [|u v W w Wk IH E]; [now left|].
  destruct IH as [->|I]; [|now right].
  right. unfold edge in E.
  destruct (get Key_eq_dec g start) eqn:G; [|discriminate].
  eapply get_Some_keys; eauto.
Qed.


Lemma iteration_cases g end_ st first rest :
  unvisited st = first :: rest ->
  let current := selectMin (distances st) first rest in
  (iteration g end_ st = Break st /\
   (is_Infinity (get Key_eq_dec (distances st) current) = true \/
    current = end_)) \/
  (is_Infinity (get Key_eq_dec (distances st) current) = false /\
   current <> end_ /\
   ((get Key_eq_dec g current = None /\ iteration g end_ st = StepError) \/
    exists adj D' P',
      get Key_eq_dec g current = Some adj /\
      fold_left (relaxNeighbor adj current) (keys adj)
        (distances st, previous st) = (D', P') /\
      iteration g end_ st =
      Continue {| distances := D';
                  previous := P';
                  unvisited := Set_delete Key_eq_dec (unvisited st) current |})).
Proof.
  intros U current. unfold iteration. rewrite U. fold current.
  destruct (is_Infinity (get Key_eq_dec (distances st) current)) eqn:I;
    [left; auto|].
  destruct (Key_eq_dec current end_) as [E|NE]; [left; auto|].
  right. split; [trivial|]. split; [trivial|].
  destruct (get Key_eq_dec g current) as [adj|]; [right | left; auto].
  destruct (fold_left (relaxNeighbor adj current) (keys adj)
              (distances st, previous st)) as [D' P'] eqn:F.
  exists adj, D', P'. rewrite <- U. auto.
Qed.

Lemma iteration_Break g end_ st st' :
  iteration g end_ st = Break st' -> st' = st /\ exited g end_ st.
Proof.
  unfold exited. destruct (unvisited st) as [|first rest] eqn:U.
  - unfold iteration. rewrite U. intros E. injection E as <-. auto.
  - destruct (iteration_cases g end_ st U)
      as [[E X]|(_ & _ & [[_ E]|(adj & D' & P' & _ & _ & E)])];
      rewrite E; try discriminate.
    intros B. injection B as <-. split; trivial.
    right. exists first, rest. auto.
Qed.

Lemma edge_of_adj g c (adj : Obj (Key num) num) v :
  get Key_eq_dec g c = Some adj ->
  edge g c v = get Key_eq_dec adj v.
Proof.
  intros G. unfold edge. now rewrite G.
Qed.

Lemma previousOf_eq P P' v :
  get Key_eq_dec P' v = get Key_eq_dec P v -> previousOf P' v = previousOf P v.
Proof.
  unfold previousOf. now intros ->.
Qed.

Lemma Sound_init g start : Sound g start (initState g start).
Proof.
  split.
  - intros v. rewrite init_unvisited. apply new_Set_spec.
  - intros v d. rewrite init_distances.
    destruct (Key_eq_dec start v) as [<-|NE].
    + intros _ _. exists zero. constructor.
    + destruct (in_dec Key_eq_dec v (keys g)); congruence.
  - intros v u. rewrite init_previous. discriminate.
  - intros v. rewrite init_distances.
    destruct (Key_eq_dec start v) as [<-|NE]; [now right|].
    destruct (in_dec Key_eq_dec v (keys g)); [now left | congruence].
  - left. apply init_previous.
  - intros v I. rewrite init_distances.
    destruct (Key_eq_dec start v); [discriminate|].
    destruct (in_dec Key_eq_dec v (keys g)); [discriminate | contradiction].
Qed.

Lemma Sound_iteration g start end_ st st' :
  Sound g start st -> iteration g end_ st = Continue st' -> Sound g start st'.
Proof.
  intros S It. destruct (unvisited st) as [|first rest] eqn:U.
  { unfold iteration in It. rewrite U in It. discriminate. }
  destruct (iteration_cases g end_ st U)
    as [[E _]|(Fin & _ & [[_ E]|(adj & D' & P' & G & F & E)])];
    rewrite E in It; try discriminate.
  injection It as <-.
  set (c := selectMin (distances st) first rest) in *.
  assert (Ic : In c (keys g)).
  { apply (sound_unvisited S). rewrite U. apply selectMin_In. }
  assert (Rc : reachable g start c).
  { destruct (get Key_eq_dec (distances st) c) as [dc|] eqn:Dc.
    - apply (sound_finite S c Dc). intros ->.
      simpl in Fin. destruct (num_eq_dec Infinity Infinity); congruence.
    - now apply (sound_defined S) in Ic. }
  assert (Step : forall v, get Key_eq_dec adj v <> None -> reachable g start v).
  { intros v A. destruct (get Key_eq_dec adj v) as [w|] eqn:Gv; [|congruence].
    destruct Rc as [W Wk]. exists (add W w).
    apply walk_step with (u := c); trivial.
    now rewrite (edge_of_adj g c v G). }
  pose proof (relax_changes adj c (keys adj) _ _ F) as Ch.
  split; simpl.
  - intros v I. apply In_Set_delete in I. apply (sound_unvisited S), I.
  - intros v d Dv Nd. destruct (Ch v) as [[A _]|(_ & A & _)].
    + rewrite A in Dv. eapply sound_finite; eauto.
    + now apply Step.
  - intros v u Pv. destruct (Ch v) as [[A B]|(_ & A & _ & A')].
    + rewrite (previousOf_eq _ _ _ B) in Pv. rewrite A.
      eapply sound_previous; eauto.
    + split; [now apply Step | trivial].
  - intros v Dv. destruct (Ch v) as [[A _]|(_ & _ & A & _)].
    + rewrite A in Dv. now apply (sound_domain S).
    + now apply (sound_domain S).
  - right. destruct Rc as [W Wk].
    destruct (walk_leaves_start Wk) as [->|I]; trivial.
  - intros v I. destruct (Ch v) as [[A _]|(_ & _ & _ & A)]; trivial.
    rewrite A. now apply (sound_defined S).
Qed.

(** The main loop keeps whatever its body keeps, and is left in one of the
    ways of [exited]. *)
Lemma mainLoop_invariant g end_ (I : DState num -> Prop) :
  (forall st st', I st -> iteration g end_ st = Continue st' -> I st') ->
  forall fuel st st',
    I st -> mainLoop fuel g end_ st = Done st' -> I st' /\ exited g end_ st'.
Proof.
  intros Keep. induction fuel as [|fuel IH]; intros st st' Ist M.
  - simpl in M. destruct (unvisited st) eqn:U; [|discriminate].
    injection M as <-. split; trivial. now left.
  - simpl in M. destruct (unvisited st) eqn:U.
    + injection M as <-. split; trivial. now left.
    + destruct (iteration g end_ st) as [st1|st1|] eqn:It; try discriminate.
      * eapply IH; [|exact M]. eapply Keep; eauto.
      * injection M as <-. apply iteration_Break in It.
        destruct It as [-> X]. auto.
Qed.

Lemma mainLoop_returns g start end_ : forall fuel st,
  Sound g start st -> length (unvisited st) <= fuel ->
  exists st', mainLoop fuel g end_ st = Done st'.
Proof.
  induction fuel as [|fuel IH]; intros st S Len.
  - destruct (unvisited st) eqn:U; simpl in *; [|lia].
    rewrite U. eauto.
  - simpl. destruct (unvisited st) as [|first rest] eqn:U; [eauto|].
    destruct (iteration_cases g end_ st U)
      as [[E _]|(_ & _ & [[G E]|(adj & D' & P' & G & F & E)])];
      rewrite E; [eauto| |].
    + exfalso. apply get_None_keys in G. apply G.
      apply (sound_unvisited S). rewrite U. apply selectMin_In.
    + apply IH.
      * eapply Sound_iteration; eauto.
      * simpl.
        pose proof (length_Set_delete Key_eq_dec _ _
                      (selectMin_In (distances st) rest first)) as Shrinks.
        rewrite U in *. cbn [length] in *. lia.
Qed.

Lemma mainLoop_Sound g start end_ fuel st' :
  mainLoop fuel g end_ (initState g start) = Done st' ->
  Sound g start st' /\ exited g end_ st'.
Proof.
  apply mainLoop_invariant with (I := Sound g start).
  - intros st st1. apply Sound_iteration.
  - apply Sound_init.
Qed.

Lemma mainLoop_init_returns g start end_ fuel :
  length (keys g) <= fuel ->
  exists st', mainLoop fuel g end_ (initState g start) = Done st'.
Proof.
  intros Len. apply mainLoop_returns with (start := start).
  - apply Sound_init.
  - rewrite init_unvisited.
    pose proof (new_Set_spec Key_eq_dec (keys g)) as (_ & _ & L). lia.
Qed.

(** C10. Every run of the body of the main loop that does not leave the
    loop removes the selected node from the set of unvisited nodes, which
    thereby gets smaller; and from the initial state the loop is left
    normally after at most as many runs of its body as the graph has
    nodes. *)
Theorem mainLoop_terminates :
  forall g start end_,
    (forall st st',
        iteration g end_ st = Continue st' ->
        exists first rest,
          unvisited st = first :: rest /\
          let current := selectMin (distances st) first rest in
          In current (unvisited st) /\
          unvisited st' = Set_delete Key_eq_dec (unvisited st) current /\
          length (unvisited st') < length (unvisited st)) /\
    (forall fuel,
        length (keys g) <= fuel ->
        exists st', mainLoop fuel g end_ (initState g start) = Done st').
Proof.
  intros g start end_. split.
  - intros st st' It. destruct (unvisited st) as [|first rest] eqn:U.
    { unfold iteration in It. rewrite U in It. discriminate. }
    exists first, rest. split; trivial.
    destruct (iteration_cases g end_ st U)
      as [[E _]|(_ & _ & [[_ E]|(adj & D' & P' & _ & _ & E)])];
      rewrite E in It; try discriminate.
    injection It as <-. simpl. rewrite ?U.
    split; [apply selectMin_In|]. split; [reflexivity|].
    apply length_Set_delete, selectMin_In.
  - intros fuel. apply mainLoop_init_returns.
Qed.

Lemma mainLoop_same g start fuel :
  mainLoop fuel g start (initState g start) = Done (initState g start) \/
  mainLoop fuel g start (initState g start) = OutOfFuel /\ fuel = 0.
Proof.
  destruct fuel as [|fuel]; simpl;
    destruct (unvisited (initState g start)) as [|first rest] eqn:U; auto.
  destruct (iteration_cases g start (initState g start) U)
    as [[E _]|(Fin & NE & _)]; [rewrite E; auto|].
  exfalso. set (c := selectMin _ first rest) in *.
  assert (I : In c (keys g)).
  { apply (new_Set_spec Key_eq_dec (keys g)).
    rewrite <- init_unvisited with (start := start), U. apply selectMin_In. }
  rewrite init_distances in Fin.
  destruct (Key_eq_dec start c); [congruence|].
  destruct (in_dec Key_eq_dec c (keys g)); [|contradiction].
  simpl in Fin. destruct (num_eq_dec Infinity Infinity); congruence.
Qed.

Lemma dijkstra_same g start fuel :
  1 <= fuel ->
  dijkstra fuel g (Some start) (Some start) = Done (Some [JSON_parse start]).
Proof.
  intros Len. unfold dijkstra.
  destruct (mainLoop_same g start fuel) as [->|[_ ->]]; [|lia].
  destruct fuel as [|fuel]; [lia|]. simpl.
  rewrite init_previous. now destruct fuel.
Qed.

Lemma dijkstra_no_route g start end_ fuel :
  length (keys g) < fuel ->
  ~ In end_ (keys g) \/ ~ reachable g start end_ ->
  dijkstra fuel g (Some start) (Some end_) = Done (Some [JSON_parse end_]).
Proof.
  intros Len No. unfold dijkstra.
  destruct (@mainLoop_init_returns g start end_ fuel) as [st M]; [lia|].
  rewrite M. apply mainLoop_Sound in M. destruct M as [S _].
  assert (Pe : previousOf (previous st) end_ = None).
  { destruct (previousOf (previous st) end_) as [u|] eqn:Pe; trivial.
    exfalso. destruct (sound_previous S _ Pe) as [R Dom].
    destruct No as [Abs|Unr]; [|contradiction].
    destruct (sound_domain S _ Dom) as [I| ->]; [contradiction|].
    destruct (sound_untouched S) as [U|I]; [|contradiction].
    rewrite U in Pe. discriminate. }
  destruct fuel as [|fuel]; [lia|]. simpl. rewrite Pe. now destruct fuel.
Qed.

Lemma dijkstra_null fuel g (start end_ : option (Key num)) :
  dijkstra fuel g start end_ = Done None <-> start = None \/ end_ = None.
Proof.
  unfold dijkstra. destruct start as [s|], end_ as [e|];
    try (split; [auto | reflexivity]).
  split; [|intros [E|E]; discriminate].
  destruct (mainLoop fuel g e (initState g s)); try discriminate.
  destruct (walkBack fuel (previous a) (Some e) []); discriminate.
Qed.

(** C1 (as amended). When [end] is not a node of the graph, or cannot be
    reached from [start], [dijkstra] returns the one-element path [[end]];
    the null path is returned exactly when [start] or [end] is null. *)
Theorem dijkstra_unreachable :
  (forall g start end_ fuel,
      length (keys g) < fuel ->
      ~ In end_ (keys g) \/ ~ reachable g start end_ ->
      dijkstra fuel g (Some start) (Some end_)
      = Done (Some [JSON_parse end_])) /\
  (forall fuel g (start end_ : option (Key num)),
      dijkstra fuel g start end_ = Done None <->
      start = None \/ end_ = None).
Proof.
  split.
  - apply dijkstra_no_route.
  - apply dijkstra_null.
Qed.
End DijkstraFacts.

Lemma mainLoop_terminates_witness :
  length (keys scenarioGraph) <= 3 /\
  exists st',
    mainLoop 3 scenarioGraph (at_ 1 1) (initState scenarioGraph (at_ 0 0))
    = Done st'.
Proof.
  split.
  - simpl. lia.
  - apply (proj2 (mainLoop_terminates scenarioGraph (at_ 0 0) (at_ 1 1)) 3).
    simpl. lia.
Defined.

(** ** Walks and their node sequences *)

Section TrailFacts.
Context {num : Type} {N : Number num}.

Implicit Types (g : Graph num) (start v u : Key num) (p : list (Key num)).

Lemma trail_walk g start p v W : trail g start p v W -> walk g start v W.
Proof.
  induction 1; econstructor; eauto.
Qed.

Lemma trail_head g start p v W :
  trail g start p v W -> exists rest, p = start :: rest.
Proof.
  induction 1 as [|p u v W w T [rest ->] E]; [now exists []|].
  now exists (rest ++ [v]).
Qed.

Lemma trail_last g start p v W :
  trail g start p v W -> exists front, p = front ++ [v].
Proof.
  destruct 1 as [|p u v W w T E]; [now exists []|]. now exists p.
Qed.

Lemma followsEdges_snoc g p u v :
  followsEdges g (p ++ [u]) -> edge g u v <> None ->
  followsEdges g ((p ++ [u]) ++ [v]).
Proof.
  intros F E. induction p as [|a [|b p] IH].
  - simpl. auto.
  - simpl in *. destruct F as [F _]. auto.
  - change (followsEdges g (a :: b :: ((p ++ [u]) ++ [v]))).
    change (followsEdges g (a :: b :: (p ++ [u]))) in F.
    destruct F as [F1 F2]. split; [exact F1|].
    apply IH. exact F2.
Qed.

Lemma trail_followsEdges g start p v W :
  trail g start p v W -> followsEdges g p.
Proof.
  induction 1 as [|p u v W w T IH E]; [exact I|].
  destruct (trail_last T) as [front ->].
  apply followsEdges_snoc; [exact IH | congruence].
Qed.

Lemma weightFrom_snoc g (rest : list (Key num)) : forall cur acc front u v W w,
  cur :: rest = front ++ [u] ->
  weightFrom g cur acc rest = Some W ->
  edge g u v = Some w ->
  weightFrom g cur acc (rest ++ [v]) = Some (add W w).
Proof.
  induction rest as [|next rest IH]; intros cur acc front u v W w E Wt Ed.
  - simpl in *. injection Wt as <-.
    destruct front as [|x [|y front]]; try discriminate.
    injection E as ->. now rewrite Ed.
  - simpl in *. destruct (edge g cur next) as [w'|]; [|discriminate].
    destruct front as [|x front]; [discriminate|].
    injection E as -> E. eapply IH; eauto.
Qed.

Lemma trail_weight g start p v W :
  trail g start p v W -> pathWeight g p = Some W.
Proof.
  induction 1 as [|p u v W w T IH E]; [reflexivity|].
  destruct (trail_head T) as [rest ->].
  destruct (trail_last T) as [front Ef].
  simpl in *. eapply weightFrom_snoc; eauto.
Qed.

Lemma walkBack_more (P : Obj (Key num) (option (Key num))) :
  forall fuel fuel' step acc path,
    walkBack fuel P step acc = Done path ->
    fuel <= fuel' ->
    walkBack fuel' P step acc = Done path.
Proof.
  induction fuel as [|fuel IH]; intros fuel' step acc path Wb Le.
  - destruct step; simpl in Wb; [discriminate|].
    now destruct fuel'.
  - destruct step as [s|]; simpl in Wb.
    + destruct fuel' as [|fuel']; [lia|]. simpl. apply IH; [exact Wb | lia].
    + now destruct fuel'.
Qed.

Lemma nonNegative_edge g u v w :
  nonNegative g -> edge g u v = Some w -> leq zero w.
Proof.
  unfold nonNegative, edge. intros NN E.
  destruct (get Key_eq_dec g u) as [adj|] eqn:G; [|discriminate].
  apply get_In in G. apply get_In in E.
  rewrite Forall_forall in NN. specialize (NN _ G). simpl in NN.
  rewrite Forall_forall in NN. apply (NN _ E).
Qed.
Lemma edge_In g u v w :
  edge g u v = Some w -> exists adj, In (u, adj) g /\ In (v, w) adj.
Proof.
  unfold edge. destruct (get Key_eq_dec g u) as [adj|] eqn:G; [|discriminate].
  intros E. exists adj. split; now apply get_In with (K_eq_dec := Key_eq_dec).
Qed.

(** A set of nodes that holds [start] and is closed under the edges of the
    graph holds every node that can be reached from [start]. *)
Lemma reachable_closed g start (C : Key num -> Prop) :
  C start ->
  (forall u v w, C u -> edge g u v = Some w -> C v) ->
  forall v, reachable g start v -> C v.
Proof.
  intros Cs Cl v [W Wk]. induction Wk; eauto.
Qed.
End TrailFacts.

Lemma twoRoads_apart :
  ~ reachable (buildAdjacencyList taxicab twoRoads) (at_ 0 0) (at_ 5 5).
Proof.
  intros R.
  apply reachable_closed
    with (C := fun v => In v [at_ 0 0; at_ 0 1; at_ 1 1]) in R.
  - simpl in R. destruct R as [E|[E|[E|[]]]]; discriminate.
  - simpl. auto.
  - intros u v w Cu E. apply edge_In in E. destruct E as (adj & I1 & I2).
    vm_compute in I1.
    destruct I1 as [I1|[I1|[I1|[I1|[I1|[]]]]]]; injection I1 as <- <-;
      simpl in Cu, I2 |- *;
      repeat match goal with
        | H : _ \/ _ |- _ => destruct H
        | H : False |- _ => destruct H
        | H : (_, _) = (_, _) |- _ => injection H as <- <-
        end;
      auto; discriminate.
Qed.

(** C1 (as stated) fails: for a destination that is not a node of the
    graph, and for a destination in another component of the road network,
    the result is a path, not the null path. *)
Lemma dijkstra_returns_end_alone :
  (~ In (at_ 9 9) (keys scenarioGraph) /\
   dijkstra 4 scenarioGraph (Some (at_ 0 0)) (Some (at_ 9 9))
   = Done (Some [at_ 9 9])) /\
  (~ reachable (buildAdjacencyList taxicab twoRoads) (at_ 0 0) (at_ 5 5) /\
   dijkstra 6 (buildAdjacencyList taxicab twoRoads)
     (Some (at_ 0 0)) (Some (at_ 5 5))
   = Done (Some [at_ 5 5])).
Proof.
  split; split.
  - simpl. intros [E|[E|[E|[]]]]; discriminate.
  - reflexivity.
  - exact twoRoads_apart.
  - reflexivity.
Qed.

Lemma dijkstra_unreachable_witness :
  (length (keys scenarioGraph) < 4 /\
   ~ In (at_ 9 9) (keys scenarioGraph) /\
   dijkstra 4 scenarioGraph (Some (at_ 0 0)) (Some (at_ 9 9))
   = Done (Some [JSON_parse (at_ 9 9)])) /\
  (length (keys (buildAdjacencyList taxicab twoRoads)) < 6 /\
   ~ reachable (buildAdjacencyList taxicab twoRoads) (at_ 0 0) (at_ 5 5) /\
   dijkstra 6 (buildAdjacencyList taxicab twoRoads)
     (Some (at_ 0 0)) (Some (at_ 5 5))
   = Done (Some [JSON_parse (at_ 5 5)])).
Proof.
  assert (A : ~ In (at_ 9 9) (keys scenarioGraph))
    by (simpl; intros [E|[E|[E|[]]]]; discriminate).
  split.
  - split; [simpl; lia|]. split; [exact A|].
    apply (proj1 dijkstra_unreachable scenarioGraph (at_ 0 0) (at_ 9 9) 4).
    + simpl. lia.
    + left. exact A.
  - split; [simpl; lia|]. split; [exact twoRoads_apart|].
    apply (proj1 dijkstra_unreachable (buildAdjacencyList taxicab twoRoads)
             (at_ 0 0) (at_ 5 5) 6).
    + simpl. lia.
    + right. exact twoRoads_apart.
Defined.

(** ** The shortest-path engine on graphs without negative weights *)

Section ShortestPath.
Context {num : Type} {N : Number num} {Laws : NumberLaws num}.

Implicit Types (g : Graph num) (start v u c : Key num) (st : DState num).
Implicit Types (D : Obj (Key num) num) (P : Obj (Key num) (option (Key num))).

(** The selected node has the least distance among the unvisited ones. *)
Lemma selectMin_least D (rest : list (Key num)) : forall first,
  (forall v, In v (first :: rest) -> get Key_eq_dec D v <> None) ->
  forall y dc dy,
    In y (first :: rest) ->
    get Key_eq_dec D (selectMin D first rest) = Some dc ->
    get Key_eq_dec D y = Some dy ->
    leq dc dy.
Proof using Laws.
  unfold selectMin. induction rest as [|x rest IH]; intros first Def y dc dy I Gc Gy.
  - simpl in *. destruct I as [<-|[]]. rewrite Gc in Gy. injection Gy as <-.
    apply leq_refl.
  - simpl in Gc.
    destruct (get Key_eq_dec D x) as [dx|] eqn:Gx;
      [|exfalso; apply (Def x); simpl; auto].
    destruct (get Key_eq_dec D first) as [df|] eqn:Gf;
      [|exfalso; apply (Def first); simpl; auto].
    simpl in Gc. destruct (ltb dx df) eqn:L.
    + assert (Def' : forall v, In v (x :: rest) -> get Key_eq_dec D v <> None)
        by (intros v Iv; apply Def; now right).
      destruct I as [<-|I].
      * rewrite Gf in Gy. injection Gy as <-.
        eapply leq_trans; [|apply lt_leq; exact L].
        apply (IH x Def' x dc dx); trivial. now left.
      * apply (IH x Def' y dc dy); trivial.
    + assert (Def' : forall v, In v (first :: rest) -> get Key_eq_dec D v <> None)
        by (intros v [<-|Iv]; apply Def; simpl; auto).
      destruct I as [<-|[<-|I]].
      * apply (IH first Def' first dc dy); trivial. now left.
      * rewrite Gx in Gy. injection Gy as <-.
        eapply leq_trans; [|exact L].
        apply (IH first Def' first dc df); trivial. now left.
      * apply (IH first Def' y dc dy); trivial. now right.
Qed.

(** Relaxing the neighbours [ns] of [c]: an entry is either left as it
    was or improved to the distance through [c], and afterwards no
    neighbour in [ns] can be improved through [c] any more. *)
Lemma relax_result (adj : Obj (Key num) num) c dc (ns : list (Key num)) :
  (forall v w, get Key_eq_dec adj v = Some w -> leq zero w) ->
  forall D P D' P',
    get Key_eq_dec D c = Some dc ->
    fold_left (relaxNeighbor adj c) ns (D, P) = (D', P') ->
    get Key_eq_dec D' c = Some dc /\
    (forall v,
        (get Key_eq_dec D' v = get Key_eq_dec D v /\
         get Key_eq_dec P' v = get Key_eq_dec P v) \/
        (exists w dv,
            In v ns /\
            get Key_eq_dec adj v = Some w /\
            get Key_eq_dec D v = Some dv /\
            ltb (add dc w) dv = true /\
            get Key_eq_dec D' v = Some (add dc w) /\
            get Key_eq_dec P' v = Some (Some c))) /\
    (forall v w dv',
        In v ns ->
        get Key_eq_dec adj v = Some w ->
        get Key_eq_dec D' v = Some dv' ->
        leq dv' (add dc w)).
Proof using Laws.
  intros NN. induction ns as [|n ns IH]; intros D P D' P' Gc F;
    cbn [fold_left] in F.
  - injection F as <- <-. split; [trivial|]. split; [now left|].
    intros v w dv' [].
  - destruct (relaxNeighbor_cases adj c D P n)
      as [E|(dc' & w & dn & Gc' & Ga & Gn & L & E)]; rewrite E in F.
    + destruct (IH _ _ _ _ Gc F) as (A & B & C). split; [trivial|]. split.
      * intros v. destruct (B v) as [U|(w & dv & I & U)]; [now left|].
        right. exists w, dv. split; [now right | trivial].
      * intros v w dv' [<-|I] Ga Gv; [|eapply C; eauto].
        destruct (B n) as [[U _]|(w' & dv & _ & Ga' & _ & _ & U & _)].
        -- rewrite U in Gv. unfold relaxNeighbor in E.
           rewrite Gc, Ga, Gv in E. simpl in E.
           destruct (ltb (add dc w) dv') eqn:L; trivial.
           injection E as E _. apply (f_equal (fun o => get Key_eq_dec o n)) in E.
           rewrite get_set_eq, Gv in E. injection E as E.
           rewrite E, ltb_irrefl in L. discriminate.
        -- rewrite Ga in Ga'. injection Ga' as <-.
           rewrite Gv in U. injection U as ->. apply leq_refl.
    + rewrite Gc in Gc'. injection Gc' as <-.
      assert (NE : n <> c).
      { intros ->. rewrite Gc in Gn. injection Gn as <-.
        pose proof (add_increasing dc (NN _ _ Ga)) as Inc. unfold leq in Inc.
        congruence. }
      assert (Gc1 : get Key_eq_dec (set Key_eq_dec D n (add dc w)) c = Some dc)
        by (rewrite get_set_neq; trivial).
      destruct (IH _ _ _ _ Gc1 F) as (A & B & C). split; [trivial|]. split.
      * intros v. destruct (B v) as [[U1 U2]|(w' & dv & I & Ga' & Gv & L' & U1 & U2)].
        -- rewrite get_set in U1, U2. destruct (Key_eq_dec n v) as [<-|NE'].
           ++ right. exists w, dn. repeat split; trivial. now left.
           ++ now left.
        -- right. rewrite get_set in Gv. destruct (Key_eq_dec n v) as [<-|NE'].
           ++ rewrite Ga in Ga'. injection Ga' as <-. injection Gv as <-.
              rewrite ltb_irrefl in L'. discriminate.
           ++ exists w', dv. repeat split; trivial. now right.
      * intros v w' dv' [<-|I] Ga' Gv; [|eapply C; eauto].
        rewrite Ga in Ga'. injection Ga' as <-.
        destruct (B n) as [[U _]|(w' & dv & _ & Ga' & _ & _ & U & _)].
        -- rewrite get_set_eq in U. rewrite Gv in U. injection U as ->.
           apply leq_refl.
        -- rewrite Ga in Ga'. injection Ga' as <-.
           rewrite Gv in U. injection U as ->. apply leq_refl.
Qed.

Lemma Settled_init g start : Settled g start [] (initState g start).
Proof using Laws.
  split; try (intros; contradiction).
  - constructor.
  - intros v. rewrite init_unvisited.
    pose proof (new_Set_spec Key_eq_dec (keys g)) as (A & _). rewrite A.
    split; [now right | intros [[]|I]; exact I].
  - intros v I. rewrite init_distances.
    destruct (Key_eq_dec start v); [discriminate|].
    destruct (in_dec Key_eq_dec v (keys g)); [discriminate | contradiction].
  - intros v. rewrite init_distances.
    destruct (Key_eq_dec start v) as [<-|NE]; [now right|].
    destruct (in_dec Key_eq_dec v (keys g)); [now left | congruence].
  - rewrite init_distances. destruct (Key_eq_dec start start); congruence.
  - apply init_previous.
  - intros v d. rewrite init_distances.
    destruct (Key_eq_dec start v).
    + intros E. injection E as <-. apply leq_refl.
    + destruct (in_dec Key_eq_dec v (keys g)); [|discriminate].
      intros E. injection E as <-. apply Infinity_greatest.
  - left. intros v I NE. rewrite init_distances.
    destruct (Key_eq_dec start v); [congruence|].
    destruct (in_dec Key_eq_dec v (keys g)); [reflexivity | contradiction].
  - intros v u. rewrite init_previous. discriminate.
  - intros v I _. rewrite init_distances.
    destruct (Key_eq_dec start v) as [<-|NE]; [now left|].
    destruct (in_dec Key_eq_dec v (keys g)); [now right | contradiction].
Qed.

Lemma edge_node g u v w : edge g u v = Some w -> In u (keys g).
Proof.
  unfold edge. destruct (get Key_eq_dec g u) eqn:G; [|discriminate].
  intros _. eapply get_Some_keys; eauto.
Qed.

(** No walk to an unvisited node is lighter than the least distance among
    the unvisited nodes. *)
Lemma unvisited_bound g start vis st dc :
  nonNegative g ->
  Settled g start vis st ->
  (forall y dy,
      In y (unvisited st) ->
      get Key_eq_dec (distances st) y = Some dy -> leq dc dy) ->
  forall y W,
    walk g start y W -> In y (unvisited st) -> leq dc W.
Proof using Laws.
  intros NN S Least y W Wk.
  induction Wk as [|u v W w Wk IH E]; intros I.
  - apply (Least start zero I). apply (inv_start S).
  - pose proof (nonNegative_edge _ _ NN E) as Pos.
    destruct (proj1 (inv_nodes S u) (edge_node _ _ _ E)) as [Iu|Iu].
    + destruct (get Key_eq_dec (distances st) u) as [du|] eqn:Du;
        [|exfalso; apply (inv_defined S u); trivial;
          apply (inv_nodes S); now left].
      destruct (get Key_eq_dec (distances st) v) as [dv|] eqn:Dv;
        [|exfalso; apply (inv_defined S v); trivial;
          apply (inv_nodes S); now right].
      eapply leq_trans; [apply (Least v dv I Dv)|].
      eapply leq_trans; [apply (inv_relaxed S u v Iu Du E Dv)|].
      apply add_mono. eapply inv_optimal; eauto.
    + eapply leq_trans; [apply IH, Iu|]. now apply add_increasing.
Qed.

Lemma cons_split (A : Type) (c v : A) (vis l1 l2 : list A) :
  c :: vis = l1 ++ v :: l2 ->
  (l1 = [] /\ v = c /\ l2 = vis) \/
  (exists l1', l1 = c :: l1' /\ vis = l1' ++ v :: l2).
Proof.
  destruct l1 as [|x l1]; simpl; intros E; injection E as -> ->.
  - now left.
  - right. now exists l1.
Qed.

(** A run of the body that stays in the loop keeps [Settled], the selected
    node being added to the nodes removed so far. *)
Lemma Settled_iteration g start end_ vis st st' :
  nonNegative g ->
  Settled g start vis st ->
  iteration g end_ st = Continue st' ->
  exists c, Settled g start (c :: vis) st'.
Proof using Laws.
  intros NN S It. destruct (unvisited st) as [|first rest] eqn:U.
  { unfold iteration in It. rewrite U in It. discriminate. }
  destruct (iteration_cases g end_ st U)
    as [[E _]|(Fin & _ & [[_ E]|(adj & D' & P' & G & F & E)])];
    rewrite E in It; try discriminate.
  injection It as <-. clear E.
  set (c := selectMin (distances st) first rest) in *.
  exists c.
  assert (Uc : In c (unvisited st)) by (rewrite U; apply selectMin_In).
  assert (Ic : In c (keys g)) by (apply (inv_nodes S); now right).
  destruct (get Key_eq_dec (distances st) c) as [dc|] eqn:Dc;
    [|now apply (inv_defined S) in Ic].
  assert (NInf : dc <> Infinity).
  { intros ->. simpl in Fin.
    destruct (num_eq_dec Infinity Infinity); congruence. }
  assert (Least : forall y dy,
             In y (unvisited st) ->
             get Key_eq_dec (distances st) y = Some dy -> leq dc dy).
  { intros y dy Iy Dy. rewrite U in Iy.
    apply (@selectMin_least (distances st) rest first) with (y := y); trivial.
    intros v Iv. apply (inv_defined S), (inv_nodes S). right. now rewrite U. }
  assert (NNadj : forall v w, get Key_eq_dec adj v = Some w -> leq zero w).
  { intros v w Gv. apply (@nonNegative_edge _ _ g c v w NN).
    now rewrite (edge_of_adj g c v G). }
  destruct (@relax_result adj c dc (keys adj) NNadj _ _ _ _ Dc F)
    as (Rc & R1 & R2).
  assert (Pos : leq zero dc) by (eapply inv_nonneg; eauto).
  assert (Keep : forall v dv,
             get Key_eq_dec (distances st) v = Some dv -> leq dv dc ->
             get Key_eq_dec D' v = get Key_eq_dec (distances st) v /\
             get Key_eq_dec P' v = get Key_eq_dec (previous st) v).
  { intros v dv Dv Le.
    destruct (R1 v) as [K|(w & dv' & _ & Gv & Dv' & L & _)]; trivial.
    exfalso. rewrite Dv in Dv'. injection Dv' as <-.
    assert (Le' : leq dv (add dc w)).
    { eapply leq_trans; [exact Le|]. apply add_increasing. eauto. }
    unfold leq in Le'. congruence. }
  assert (KeepVis : forall v,
             In v vis ->
             get Key_eq_dec D' v = get Key_eq_dec (distances st) v /\
             get Key_eq_dec P' v = get Key_eq_dec (previous st) v).
  { intros v Iv.
    destruct (get Key_eq_dec (distances st) v) as [dv|] eqn:Dv.
    - rewrite <- Dv. apply (Keep v dv Dv).
      apply (inv_monotone S v c Iv Uc Dv Dc).
    - exfalso. apply (inv_defined S v); trivial. apply (inv_nodes S). now left. }
  assert (KeepStart :
             get Key_eq_dec D' start = get Key_eq_dec (distances st) start /\
             get Key_eq_dec P' start = get Key_eq_dec (previous st) start).
  { apply (Keep start zero (inv_start S) Pos). }
  assert (Fresh : forall v w dv,
             get Key_eq_dec (distances st) v = Some dv ->
             ltb (add dc w) dv = true ->
             get Key_eq_dec D' v = Some (add dc w) ->
             ~ In v (c :: vis)).
  { intros v w dv Dv L Dv' Iv.
    assert (K : get Key_eq_dec D' v = get Key_eq_dec (distances st) v).
    { destruct Iv as [<-|Iv]; [congruence | apply (KeepVis v Iv)]. }
    rewrite Dv', Dv in K. injection K as K.
    rewrite K, ltb_irrefl in L. discriminate. }
  split; simpl.
  - constructor; [|apply (inv_nodup S)].
    intros Iv. now apply (inv_disjoint S) in Iv.
  - intros v. rewrite In_Set_delete, (inv_nodes S v).
    destruct (Key_eq_dec v c) as [->|NE]; [tauto|].
    split; [intros [I|I]; auto | intros [[E|I]|[I _]]; auto; congruence].
  - intros v [<-|Iv] Id; apply In_Set_delete in Id.
    + destruct Id as [_ NE]. congruence.
    + destruct Id as [Id _]. now apply (inv_disjoint S) in Iv.
  - intros v Iv. destruct (R1 v) as [[K _]|(w & dv & _ & _ & _ & _ & K & _)];
      rewrite K; [now apply (inv_defined S) | discriminate].
  - intros v Dv. apply (inv_domain S).
    destruct (R1 v) as [[K _]|(w & dv & _ & _ & K & _)]; congruence.
  - destruct KeepStart as [K _]. rewrite K. apply (inv_start S).
  - destruct KeepStart as [_ K]. rewrite (previousOf_eq _ _ _ K).
    apply (inv_start_previous S).
  - intros v d Dv.
    destruct (R1 v) as [[K _]|(w & dv & _ & Gv & _ & _ & K & _)];
      rewrite K in Dv.
    + eapply inv_nonneg; eauto.
    + injection Dv as <-. apply zero_leq_add; eauto.
  - right. destruct (inv_first S) as [Far|Is]; [|now right].
    left. destruct (Key_eq_dec c start) as [E|NE]; trivial.
    specialize (Far c Ic NE). congruence.
  - intros v u Pv.
    destruct (R1 v) as [[K1 K2]|(w & dv & _ & Gv & Dv & L & K1 & K2)].
    + rewrite (previousOf_eq _ _ _ K2) in Pv.
      destruct (inv_previous S _ Pv) as (Iu & (du & w & Du & Ed & Dv) & Ord).
      split; [now right|]. split.
      * exists du, w. destruct (KeepVis u Iu) as [Ku _].
        rewrite Ku, K1. auto.
      * intros l1 l2 Sp. apply cons_split in Sp.
        destruct Sp as [(_ & _ & ->)|(l1' & _ & Sp)]; eauto.
    + unfold previousOf in Pv. rewrite K2 in Pv. injection Pv as <-.
      split; [now left|]. split.
      * exists dc, w. rewrite (edge_of_adj g c v G). auto.
      * intros l1 l2 Sp. exfalso. apply (Fresh v w dv Dv L K1).
        rewrite Sp. apply in_app_iff. right. now left.
  - intros v Iv Pv.
    destruct (R1 v) as [[K1 K2]|(w & dv & _ & _ & _ & _ & _ & K2)].
    + rewrite (previousOf_eq _ _ _ K2) in Pv. rewrite K1.
      now apply (inv_root S).
    + unfold previousOf in Pv. rewrite K2 in Pv. discriminate.
  - intros v [<-|Iv].
    + rewrite Rc. congruence.
    + destruct (KeepVis v Iv) as [K _]. rewrite K. now apply (inv_finite S).
  - intros v d W [<-|Iv] Dv Wk.
    + rewrite Rc in Dv. injection Dv as <-.
      eapply unvisited_bound; eauto.
    + destruct (KeepVis v Iv) as [K _]. rewrite K in Dv.
      eapply inv_optimal; eauto.
  - intros u v du dv' w [<-|Iu] Du Ed Dv.
    + rewrite Rc in Du. injection Du as <-.
      rewrite (edge_of_adj g c v G) in Ed.
      apply (R2 v w dv'); trivial. eapply get_Some_keys; eauto.
    + destruct (KeepVis u Iu) as [Ku _]. rewrite Ku in Du.
      destruct (R1 v) as [[K _]|(w' & dv & _ & _ & Dv0 & L & K & _)];
        rewrite K in Dv.
      * eapply inv_relaxed; eauto.
      * injection Dv as <-.
        eapply leq_trans; [apply lt_leq; exact L|].
        eapply inv_relaxed; eauto.
  - intros u v du dv' Iu Iv Du Dv. apply In_Set_delete in Iv.
    destruct Iv as [Iv NE].
    assert (Le : leq du dc).
    { destruct Iu as [<-|Iu].
      - rewrite Rc in Du. injection Du as <-. apply leq_refl.
      - destruct (KeepVis u Iu) as [Ku _]. rewrite Ku in Du.
        apply (inv_monotone S u c Iu Uc Du Dc). }
    eapply leq_trans; [exact Le|].
    destruct (R1 v) as [[K _]|(w' & dv & _ & Gv & _ & _ & K & _)];
      rewrite K in Dv.
    + eapply Least; eauto.
    + injection Dv as <-. apply add_increasing. eauto.
Qed.

(** Walking back from a removed node ends at [start] and yields the node
    sequence of a walk whose weight is the distance of the node. *)
Lemma walkBack_trail g start vis st :
  Settled g start vis st ->
  forall n l1 x l2,
    vis = l1 ++ x :: l2 -> length l2 <= n ->
    forall fuel acc,
      n < fuel ->
      exists p d,
        walkBack fuel (previous st) (Some x) acc = Done (p ++ acc) /\
        trail g start p x d /\
        get Key_eq_dec (distances st) x = Some d.
Proof.
  intros S. induction n as [|n IH]; intros l1 x l2 Sp Len fuel acc Fuel;
    (destruct fuel as [|fuel]; [lia|]); simpl;
    assert (Ix : In x vis) by (rewrite Sp; apply in_app_iff; right; now left);
    destruct (previousOf (previous st) x) as [u|] eqn:Px.
  - destruct (inv_previous S _ Px) as (_ & _ & Ord).
    specialize (Ord _ _ Sp). destruct l2; [contradiction | simpl in Len; lia].
  - exists [x], zero.
    destruct (inv_root S x) as [->|Far]; trivial.
    + apply (inv_nodes S). now left.
    + split; [now destruct fuel|]. split; [constructor | apply (inv_start S)].
    + now apply (inv_finite S) in Ix.
  - destruct (inv_previous S _ Px) as (Iu & (du & w & Du & Ed & Dx) & Ord).
    specialize (Ord _ _ Sp). apply in_split in Ord.
    destruct Ord as (m1 & m2 & ->).
    destruct (IH (l1 ++ x :: m1) u m2) with (fuel := fuel) (acc := x :: acc)
      as (p & d & Wb & T & Du').
    + rewrite Sp, <- app_assoc. reflexivity.
    + rewrite length_app in Len. simpl in Len. lia.
    + lia.
    + exists (p ++ [x]), (add du w).
      split; [rewrite <- app_assoc; exact Wb|]. split; trivial.
      rewrite Du in Du'. injection Du' as <-.
      now apply trail_step with (u := u).
  - exists [x], zero.
    destruct (inv_root S x) as [->|Far]; trivial.
    + apply (inv_nodes S). now left.
    + split; [now destruct fuel|]. split; [constructor | apply (inv_start S)].
    + now apply (inv_finite S) in Ix.
Qed.

Lemma mainLoop_Settled g start end_ fuel st :
  nonNegative g ->
  mainLoop fuel g end_ (initState g start) = Done st ->
  (exists vis, Settled g start vis st) /\ exited g end_ st.
Proof using Laws.
  intros NN.
  apply mainLoop_invariant with (I := fun st => exists vis, Settled g start vis st).
  - intros st0 st1 [vis S] It.
    destruct (@Settled_iteration g start end_ vis st0 st1 NN S It) as [c S'].
    eauto.
  - exists []. apply Settled_init.
Qed.

(** When the loop is left, the distance of an unvisited destination is a
    lower bound of the weight of every walk to it. *)
Lemma exited_bound g start end_ vis st d :
  nonNegative g ->
  Settled g start vis st ->
  exited g end_ st ->
  In end_ (unvisited st) ->
  get Key_eq_dec (distances st) end_ = Some d ->
  forall W, walk g start end_ W -> leq d W.
Proof using Laws.
  intros NN S [U|(first & rest & U & X)] Ie De W Wk.
  { rewrite U in Ie. contradiction. }
  set (c := selectMin (distances st) first rest) in *.
  assert (Uc : In c (unvisited st)) by (rewrite U; apply selectMin_In).
  destruct (get Key_eq_dec (distances st) c) as [dc|] eqn:Dc;
    [|exfalso; apply (inv_defined S c); trivial; apply (inv_nodes S); now right].
  assert (Least : forall y dy,
             In y (unvisited st) ->
             get Key_eq_dec (distances st) y = Some dy -> leq dc dy).
  { intros y dy Iy Dy. rewrite U in Iy.
    apply (@selectMin_least (distances st) rest first) with (y := y); trivial.
    intros v Iv. apply (inv_defined S), (inv_nodes S). right. now rewrite U. }
  pose proof (@unvisited_bound g start vis st dc NN S Least end_ W Wk Ie) as B.
  destruct X as [X|X].
  - apply is_Infinity_true in X. rewrite Dc in X. injection X as ->.
    apply Infinity_leq in B. subst W. apply Infinity_greatest.
  - subst c. rewrite X in Dc. congruence.
Qed.

Lemma Settled_length g start vis st :
  Settled g start vis st -> length vis <= length (keys g).
Proof.
  intros S. apply NoDup_incl_length; [apply (inv_nodup S)|].
  intros v I. apply (inv_nodes S). now left.
Qed.

(** C2. On a graph without negative weights, [dijkstra] returns a path
    (given room for as many runs of its loops as the graph has nodes, and
    one more); a returned path of two or more coordinates begins at
    [start], ends at [end], joins consecutive coordinates by edges of the
    graph only, and its total weight is the distance the engine has
    computed for [end], which is the least weight of a walk from [start] to
    [end]. *)
Theorem dijkstra_shortest_path :
  forall g start end_ fuel,
    nonNegative g ->
    (length (keys g) < fuel ->
     exists path, dijkstra fuel g (Some start) (Some end_) = Done (Some path)) /\
    (forall path,
        dijkstra fuel g (Some start) (Some end_) = Done (Some path) ->
        2 <= length path ->
        (exists rest, path = JSON_parse start :: rest) /\
        (exists front, path = front ++ [JSON_parse end_]) /\
        followsEdges g path /\
        exists st d,
          mainLoop fuel g end_ (initState g start) = Done st /\
          get Key_eq_dec (distances st) end_ = Some d /\
          pathWeight g path = Some d /\
          walk g start end_ d /\
          forall W, walk g start end_ W -> leq d W).
Proof using Laws.
  intros g start end_ fuel NN. split.
  - intros Len. unfold dijkstra.
    destruct (@mainLoop_init_returns num N g start end_ fuel) as [st M]; [lia|].
    rewrite M. destruct (@mainLoop_Settled g start end_ fuel st NN M) as [[vis S] _].
    destruct fuel as [|fuel]; [lia|]. simpl.
    destruct (previousOf (previous st) end_) as [u|] eqn:Pe.
    + destruct (inv_previous S _ Pe) as (Iu & _ & _).
      apply in_split in Iu. destruct Iu as (l1 & l2 & Sp).
      pose proof (Settled_length S) as Lv.
      rewrite Sp, length_app in Lv. simpl in Lv.
      destruct (@walkBack_trail g start vis st S (length l2) l1 u l2 Sp
                  (Nat.le_refl _) fuel [JSON_parse end_])
        as (p & d & Wb & _); [lia|].
      rewrite Wb. eauto.
    + destruct fuel; simpl; eauto.
  - intros path Dj Len. unfold dijkstra in Dj.
    destruct (mainLoop fuel g end_ (initState g start)) as [st| |] eqn:M;
      try discriminate.
    destruct (walkBack fuel (previous st) (Some end_) []) as [path'| |] eqn:Wb;
      try discriminate.
    injection Dj as ->.
    destruct (@mainLoop_Settled g start end_ fuel st NN M) as [[vis S] X].
    destruct fuel as [|fuel]; [discriminate|]. simpl in Wb.
    destruct (previousOf (previous st) end_) as [u|] eqn:Pe.
    2:{ assert (E : path = [JSON_parse end_])
          by (destruct fuel; simpl in Wb; congruence).
        subst path. simpl in Len. lia. }
    destruct (inv_previous S _ Pe) as (Iu & (du & w & Du & Ed & De) & _).
    apply in_split in Iu. destruct Iu as (l1 & l2 & Sp).
    destruct (@walkBack_trail g start vis st S (length l2) l1 u l2 Sp
                (Nat.le_refl _) (Nat.max fuel (1 + length l2))
                [JSON_parse end_])
      as (p & d & Wb' & T & Du'); [lia|].
    apply walkBack_more with (fuel' := Nat.max fuel (1 + length l2)) in Wb;
      [|lia].
    rewrite Wb in Wb'. injection Wb' as ->.
    rewrite Du in Du'. injection Du' as <-.
    assert (T' : trail g start (p ++ [end_]) end_ (add du w))
      by now apply trail_step with (u := u).
    unfold JSON_parse in *.
    split; [exact (trail_head T')|].
    split; [exact (trail_last T')|].
    split; [exact (trail_followsEdges T')|].
    exists st, (add du w).
    split; [reflexivity|]. split; [exact De|].
    split; [exact (trail_weight T')|].
    split; [exact (trail_walk T')|].
    intros W Wk.
    assert (Ie : In end_ (keys g)).
    { destruct (inv_domain S end_) as [I|E]; trivial; [congruence|].
      subst end_. rewrite (inv_start_previous S) in Pe. discriminate. }
    apply (inv_nodes S) in Ie. destruct Ie as [Ie|Ie].
    + eapply inv_optimal; eauto.
    + eapply exited_bound; eauto.
Qed.
End ShortestPath.

Lemma dijkstra_shortest_path_witness :
  nonNegative scenarioGraph /\
  dijkstra 4 scenarioGraph (Some (at_ 0 0)) (Some (at_ 1 1))
  = Done (Some [at_ 0 0; at_ 0 1; at_ 1 1]) /\
  pathWeight scenarioGraph [at_ 0 0; at_ 0 1; at_ 1 1] = Some (Fin 15) /\
  (forall W, walk scenarioGraph (at_ 0 0) (at_ 1 1) W -> leq (Fin 15) W).
Proof.
  assert (NN : nonNegative scenarioGraph) by (repeat constructor).
  assert (Dj : dijkstra 4 scenarioGraph (Some (at_ 0 0)) (Some (at_ 1 1))
               = Done (Some [at_ 0 0; at_ 0 1; at_ 1 1])) by reflexivity.
  destruct (dijkstra_shortest_path (at_ 0 0) (at_ 1 1) 4 NN) as [_ Short].
  destruct (Short _ Dj) as (_ & _ & _ & st & d & _ & _ & Wt & _ & Opt).
  - simpl. lia.
  - injection Wt as <-. repeat split; trivial.
Defined.

(** ** The navigation handler *)

Section HandlerFacts.
Context {num : Type} {N : Number num}.
Variable distanceTo : Coord num -> Coord num -> num.

Implicit Types (st : State num) (features : list (PointFeature num)).

Lemma falsy_name (n : string) : falsy (Some n) = false <-> n <> EmptyString.
Proof.
  simpl. destruct (String.eqb_spec n EmptyString); split; congruence.
Qed.

Lemma handleNavigation_resolved fuel st startName endName features :
  startPoint st = Some startName ->
  endPoint st = Some endName ->
  startName <> EmptyString ->
  endName <> EmptyString ->
  points st = Some features ->
  handleNavigation distanceTo fuel st =
  match coordinatesOf features startName, coordinatesOf features endName with
  | Some startCoords, Some endCoords =>
      routeBetween fuel st
        (findNearestNode distanceTo (adjacencyList st) (transpose startCoords))
        (findNearestNode distanceTo (adjacencyList st) (transpose endCoords))
  | _, _ => Done (st, Some "Invalid points selected!"%string)
  end.
Proof.
  intros Sp Ep Sn En Pt. unfold handleNavigation.
  rewrite Sp, Ep, Pt.
  apply falsy_name in Sn. apply falsy_name in En. rewrite Sn, En. simpl.
  destruct (coordinatesOf features startName) as [[slng slat]|]; trivial.
  destruct (coordinatesOf features endName) as [[elng elat]|]; trivial.
Qed.

(** C6. [dijkstra] called with the same node as start and end returns the
    one-node path; the handler, when both selected points resolve to the
    same node, treats it as no route: it alerts and resets the stored
    route. *)
Theorem dijkstra_identity :
  (forall (g : Graph num) (start : Key num) fuel,
      1 <= fuel ->
      dijkstra fuel g (Some start) (Some start)
      = Done (Some [JSON_parse start])) /\
  (forall fuel st startName endName features startCoords endCoords node,
      1 <= fuel ->
      startPoint st = Some startName ->
      endPoint st = Some endName ->
      startName <> EmptyString ->
      endName <> EmptyString ->
      points st = Some features ->
      coordinatesOf features startName = Some startCoords ->
      coordinatesOf features endName = Some endCoords ->
      findNearestNode distanceTo (adjacencyList st) (transpose startCoords)
      = Some node ->
      findNearestNode distanceTo (adjacencyList st) (transpose endCoords)
      = Some node ->
      handleNavigation distanceTo fuel st =
      Done (setRoute st None,
            Some "No valid path found between selected points."%string)).
Proof.
  split.
  - intros g start fuel. apply dijkstra_same.
  - intros fuel st startName endName features startCoords endCoords node
      Len Sp Ep Sn En Pt Sc Ec Ns Ne.
    rewrite (handleNavigation_resolved fuel st Sp Ep Sn En Pt), Sc, Ec, Ns, Ne.
    unfold routeBetween. now rewrite dijkstra_same.
Qed.

(** C8. Source positions are in (longitude, latitude) order and are
    transposed before use: every node key of the built graph is the key of
    a transposed road position, every stored weight is the distance between
    two transposed consecutive road positions, and the handler looks up the
    nearest nodes of the transposed positions of the two selected
    points. *)
Theorem coordinates_transposed :
  (forall (roads : list (RoadFeature num)),
      (forall k, In k (keys (buildAdjacencyList distanceTo roads)) ->
         exists road p,
           In road roads /\ In p road /\ k = JSON_stringify (transpose p)) /\
      (forall a b w,
         edge (buildAdjacencyList distanceTo roads) a b = Some w ->
         exists road (p q : Position num),
           In road roads /\ In (p, q) (segments road) /\
           joins (transpose p, transpose q) a b /\
           w = distanceTo (transpose p) (transpose q))) /\
  (forall fuel st startName endName features startCoords endCoords,
      startPoint st = Some startName ->
      endPoint st = Some endName ->
      startName <> EmptyString ->
      endName <> EmptyString ->
      points st = Some features ->
      coordinatesOf features startName = Some startCoords ->
      coordinatesOf features endName = Some endCoords ->
      handleNavigation distanceTo fuel st =
      routeBetween fuel st
        (findNearestNode distanceTo (adjacencyList st) (transpose startCoords))
        (findNearestNode distanceTo (adjacencyList st) (transpose endCoords))).
Proof.
  split.
  - apply buildAdjacencyList_transposed.
  - intros fuel st startName endName features startCoords endCoords
      Sp Ep Sn En Pt Sc Ec.
    now rewrite (handleNavigation_resolved fuel st Sp Ep Sn En Pt), Sc, Ec.
Qed.

(** C9. The handler leaves the state as it is when a selection is missing,
    when a selected name matches no point, and when a point resolves to no
    node; when the engine returns the null path or a path of fewer than two
    coordinates it resets the stored route to null; and it stores a path
    only when it has two coordinates or more. *)
Theorem handleNavigation_route :
  forall fuel st,
    (falsy (startPoint st) = true \/ falsy (endPoint st) = true ->
     handleNavigation distanceTo fuel st =
     Done (st, Some "Select both start and end points!"%string)) /\
    (forall startName endName features,
        startPoint st = Some startName ->
        endPoint st = Some endName ->
        startName <> EmptyString ->
        endName <> EmptyString ->
        points st = Some features ->
        (coordinatesOf features startName = None \/
         coordinatesOf features endName = None ->
         handleNavigation distanceTo fuel st =
         Done (st, Some "Invalid points selected!"%string)) /\
        (forall startCoords endCoords,
            coordinatesOf features startName = Some startCoords ->
            coordinatesOf features endName = Some endCoords ->
            let startNode :=
              findNearestNode distanceTo (adjacencyList st)
                (transpose startCoords) in
            let endNode :=
              findNearestNode distanceTo (adjacencyList st)
                (transpose endCoords) in
            (startNode = None \/ endNode = None ->
             handleNavigation distanceTo fuel st =
             Done (st, Some "Selected points are not connected to the road network!"%string)) /\
            (forall s e path,
                startNode = Some s ->
                endNode = Some e ->
                dijkstra fuel (adjacencyList st) (Some s) (Some e) = Done path ->
                (path = None \/ (exists p, path = Some p /\ length p < 2) ->
                 handleNavigation distanceTo fuel st =
                 Done (setRoute st None,
                       Some "No valid path found between selected points."%string)) /\
                (forall p,
                    path = Some p -> 2 <= length p ->
                    handleNavigation distanceTo fuel st =
                    Done (setRoute st (Some p), None))))).
Proof.
  intros fuel st. split.
  - intros F. unfold handleNavigation.
    destruct (falsy (startPoint st)), (falsy (endPoint st)); trivial.
    destruct F; discriminate.
  - intros startName endName features Sp Ep Sn En Pt.
    rewrite (handleNavigation_resolved fuel st Sp Ep Sn En Pt). split.
    + intros [-> | ->]; trivial.
      now destruct (coordinatesOf features startName).
    + intros startCoords endCoords -> -> startNode endNode. split.
      * unfold routeBetween. fold startNode endNode.
        intros [-> | ->]; trivial. now destruct startNode.
      * intros s e path Ns Ne Dj. unfold routeBetween.
        fold startNode endNode. rewrite Ns, Ne, Dj. split.
        -- intros [-> | (p & -> & Len)]; trivial.
           apply Nat.ltb_lt in Len. now rewrite Len.
        -- intros p -> Len. apply Nat.ltb_ge in Len. now rewrite Len.
Qed.
End HandlerFacts.

Lemma findNearestNode_nearest_witness :
  (forall node, In node (keys scenarioGraph) ->
     ltb (taxicab (at_ 1 0) (JSON_parse node)) Infinity = true) /\
  findNearestNode taxicab scenarioGraph (at_ 1 0) = Some (at_ 0 0) /\
  (findNearestNode taxicab scenarioGraph (at_ 1 0) = None <->
   keys scenarioGraph = []) /\
  (forall m, In m (keys scenarioGraph) ->
     leq (taxicab (at_ 1 0) (JSON_parse (at_ 0 0)))
        (taxicab (at_ 1 0) (JSON_parse m))) /\
  exists pre post,
    keys scenarioGraph = pre ++ at_ 0 0 :: post /\
    forall m, In m pre ->
      ltb (taxicab (at_ 1 0) (JSON_parse (at_ 0 0)))
          (taxicab (at_ 1 0) (JSON_parse m)) = true.
Proof.
  assert (Finite : forall node : Key ZInf,
             In node (keys scenarioGraph) ->
             ltb (taxicab (at_ 1 0) (JSON_parse node)) Infinity = true)
    by (intros node _; reflexivity).
  destruct (findNearestNode_nearest taxicab (at_ 1 0) scenarioGraph)
    as [Empty Nearest].
  split; [exact Finite|]. split; [reflexivity|].
  split; [exact (Empty Finite)|].
  destruct (Nearest (at_ 0 0) eq_refl) as (_ & Least & First).
  split; [exact Least | exact First].
Defined.

Lemma dijkstra_identity_witness :
  dijkstra 1 scenarioGraph (Some (at_ 0 1)) (Some (at_ 0 1))
  = Done (Some [at_ 0 1]) /\
  handleNavigation taxicab 1 (sampleState (Some Gate) (Some Gate))
  = Done (setRoute (sampleState (Some Gate) (Some Gate)) None,
          Some "No valid path found between selected points."%string).
Proof.
  pose proof (@dijkstra_identity ZInf ZInf_Number taxicab) as [Same Handler].
  split.
  - apply (Same scenarioGraph (at_ 0 1) 1). lia.
  - apply (Handler 1 (sampleState (Some Gate) (Some Gate))
             Gate Gate samplePoints (at_ 0 0) (at_ 0 0) (at_ 0 0));
      try reflexivity; discriminate.
Defined.

Lemma coordinates_transposed_witness :
  (exists road p,
      In road twoRoads /\ In p road /\ at_ 0 1 = JSON_stringify (transpose p)) /\
  handleNavigation taxicab 4 (sampleState (Some Gate) (Some Library))
  = routeBetween 4 (sampleState (Some Gate) (Some Library))
      (findNearestNode taxicab scenarioGraph (transpose (at_ 0 0)))
      (findNearestNode taxicab scenarioGraph (transpose (at_ 1 1))).
Proof.
  pose proof (@coordinates_transposed ZInf ZInf_Number taxicab) as [Roads Handler].
  split.
  - apply (proj1 (Roads twoRoads) (at_ 0 1)). simpl. auto.
  - apply (Handler 4 (sampleState (Some Gate) (Some Library))
             Gate Library samplePoints (at_ 0 0) (at_ 1 1));
      try reflexivity; discriminate.
Defined.

Lemma handleNavigation_route_witness :
  handleNavigation taxicab 4 (sampleState None (Some Library))
  = Done (sampleState None (Some Library),
          Some "Select both start and end points!"%string) /\
  handleNavigation taxicab 4 (sampleState (Some Gate) (Some Library))
  = Done (setRoute (sampleState (Some Gate) (Some Library))
            (Some [at_ 0 0; at_ 0 1; at_ 1 1]), None).
Proof.
  split.
  - apply (proj1 (handleNavigation_route taxicab 4
                    (sampleState None (Some Library)))).
    left. reflexivity.
  - destruct (handleNavigation_route taxicab 4
                (sampleState (Some Gate) (Some Library))) as [_ Sel].
    assert (NG : Gate <> EmptyString) by discriminate.
    assert (NL : Library <> EmptyString) by discriminate.
    destruct (Sel Gate Library samplePoints eq_refl eq_refl NG NL eq_refl)
      as [_ Found].
    destruct (Found (at_ 0 0) (at_ 1 1) eq_refl eq_refl) as [_ Routed].
    destruct (Routed (at_ 0 0) (at_ 1 1)
                (Some [at_ 0 0; at_ 0 1; at_ 1 1]) eq_refl eq_refl eq_refl)
      as [_ Stored].
    apply (Stored [at_ 0 0; at_ 0 1; at_ 1 1] eq_refl). simpl. lia.
Defined.

(** * Further properties *)

(** ** The built graph *)

Section BuilderExtras.
Context {num : Type} {N : Number num}.
Variable distanceTo : Coord num -> Coord num -> num.

Implicit Types (g : Graph num) (a b k : Key num).

Lemma keys_ensureNode_add g k :
  keys (ensureNode g k) = Set_add Key_eq_dec (keys g) k.
Proof.
  unfold ensureNode, Set_add.
  destruct (get Key_eq_dec g k) eqn:G; destruct (in_dec Key_eq_dec k (keys g)) as [I|NI].
  - reflexivity.
  - exfalso. apply NI. eapply get_Some_keys; eauto.
  - apply get_None_keys in G. contradiction.
  - now apply keys_set_absent.
Qed.

Lemma keys_addSegment_add g c1 c2 :
  keys (addSegment distanceTo g c1 c2) =
  Set_add Key_eq_dec (Set_add Key_eq_dec (keys g) (JSON_stringify c1))
    (JSON_stringify c2).
Proof.
  unfold addSegment. now rewrite !keys_setEdge, !keys_ensureNode_add.
Qed.

Lemma keys_insertAll_fold segs : forall g,
  keys (insertAll distanceTo g segs) =
  fold_left (Set_add Key_eq_dec) (endpoints segs) (keys g).
Proof.
  induction segs as [|[c1 c2] segs IH]; intros g; [reflexivity|].
  simpl. now rewrite IH, keys_addSegment_add.
Qed.

(** X1. The nodes of the built graph are the ends of the segments of the
    roads, each once, in the order in which they first occur. *)
Theorem buildAdjacencyList_keys :
  forall (roads : list (RoadFeature num)),
    keys (buildAdjacencyList distanceTo roads) =
    new_Set Key_eq_dec (endpoints (roadSegments roads)).
Proof.
  intros roads. rewrite build_insertAll. apply keys_insertAll_fold.
Qed.

Lemma edge_insertAll_keeps segs a b : forall g,
  edge g a b <> None -> edge (insertAll distanceTo g segs) a b <> None.
Proof.
  induction segs as [|[c1 c2] segs IH]; intros g E; [exact E|].
  simpl. apply IH. rewrite edge_addSegment.
  destruct (Key_eq_dec c1 a), (Key_eq_dec c2 b),
    (Key_eq_dec c2 a), (Key_eq_dec c1 b); trivial; discriminate.
Qed.

Lemma edge_insertAll_joined segs a b : forall g s,
  In s segs -> joins s a b -> edge (insertAll distanceTo g segs) a b <> None.
Proof.
  induction segs as [|[c1 c2] segs IH]; intros g s I J; [contradiction|].
  simpl. destruct I as [<-|I].
  - apply edge_insertAll_keeps.
    rewrite edge_addSegment_joins by exact J. discriminate.
  - eapply IH; eauto.
Qed.

(** X2. Two nodes are joined by an edge of the built graph exactly when
    some segment of some road joins them, in one orientation or the
    other. *)
Theorem buildAdjacencyList_edges :
  forall (roads : list (RoadFeature num)) a b,
    edge (buildAdjacencyList distanceTo roads) a b <> None <->
    exists s, In s (roadSegments roads) /\ joins s a b.
Proof.
  intros roads a b. rewrite build_insertAll. split.
  - intros E.
    destruct (edge (insertAll distanceTo [] (roadSegments roads)) a b)
      as [w|] eqn:Ew; [|congruence].
    apply edge_insertAll_origin in Ew.
    destruct Ew as [Ew|(s & I & J & _)]; [discriminate | eauto].
  - intros (s & I & J). eapply edge_insertAll_joined; eauto.
Qed.

(** X3. The built graph has no isolated node and no dangling edge: every
    node has a neighbour, and both ends of every edge are nodes. *)
Theorem buildAdjacencyList_no_isolated_node :
  forall (roads : list (RoadFeature num)),
    (forall a, In a (keys (buildAdjacencyList distanceTo roads)) ->
       exists b, edge (buildAdjacencyList distanceTo roads) a b <> None) /\
    (forall a b, edge (buildAdjacencyList distanceTo roads) a b <> None ->
       In a (keys (buildAdjacencyList distanceTo roads)) /\
       In b (keys (buildAdjacencyList distanceTo roads))).
Proof.
  intros roads. rewrite build_insertAll. split.
  - intros a I. apply keys_insertAll in I.
    destruct I as [[]|([c1 c2] & I & [E|E])]; simpl in E; subst a.
    + exists (JSON_stringify c2).
      apply edge_insertAll_joined with (s := (c1, c2)); trivial.
      left. auto.
    + exists (JSON_stringify c1).
      apply edge_insertAll_joined with (s := (c1, c2)); trivial.
      right. auto.
  - intros a b E.
    destruct (edge (insertAll distanceTo [] (roadSegments roads)) a b)
      as [w|] eqn:Ew; [|congruence].
    split; [eapply edge_node; eauto|].
    assert (Eb : edge (insertAll distanceTo [] (roadSegments roads)) b a = Some w).
    { rewrite <- Ew. apply symmetric_insertAll. reflexivity. }
    eapply edge_node; eauto.
Qed.

Lemma segments_short (A : Type) (coords : list A) :
  length coords < 2 -> segments coords = [].
Proof.
  destruct coords as [|x [|y rest]]; simpl; trivial. lia.
Qed.

(** X4. A road feature with fewer than two coordinates adds nothing to the
    graph. *)
Theorem buildAdjacencyList_short_feature :
  forall (roads1 roads2 : list (RoadFeature num)) (road : RoadFeature num),
    length road < 2 ->
    buildAdjacencyList distanceTo (roads1 ++ road :: roads2) =
    buildAdjacencyList distanceTo (roads1 ++ roads2).
Proof.
  intros roads1 roads2 road Short. rewrite !build_insertAll. f_equal.
  unfold roadSegments. rewrite !flat_map_app. simpl.
  rewrite segments_short; [reflexivity|]. now rewrite length_map.
Qed.

Lemma Forall_set (K V : Type) (K_eq_dec : forall x y : K, {x = y} + {x <> y})
  (Q : K * V -> Prop) (o : Obj K V) (key : K) (val : V) :
  Forall Q o -> Q (key, val) -> Forall Q (set K_eq_dec o key val).
Proof.
  intros F Qk. induction F as [|[k' v'] o' Hd Tl IH]; simpl.
  - constructor; [exact Qk | constructor].
  - destruct (K_eq_dec k' key) as [->|NE]; constructor; trivial.
Qed.

Lemma nonNegative_get g k (adj : Obj (Key num) num) :
  nonNegative g -> get Key_eq_dec g k = Some adj ->
  Forall (fun nw => leq zero (snd nw)) adj.
Proof.
  intros NN G. apply get_In in G. unfold nonNegative in NN.
  rewrite Forall_forall in NN. apply (NN _ G).
Qed.

Lemma nonNegative_ensureNode g k : nonNegative g -> nonNegative (ensureNode g k).
Proof.
  intros NN. unfold ensureNode. destruct (get Key_eq_dec g k); trivial.
  apply Forall_set; [exact NN|]. simpl. constructor.
Qed.

Lemma nonNegative_setEdge g k1 k2 d :
  leq zero d -> nonNegative g -> nonNegative (setEdge g k1 k2 d).
Proof.
  intros Pos NN. unfold setEdge.
  destruct (get Key_eq_dec g k1) as [adj|] eqn:G; trivial.
  apply Forall_set; [exact NN|]. simpl.
  apply Forall_set; [|exact Pos]. eapply nonNegative_get; eauto.
Qed.

Lemma nonNegative_insertAll segs :
  (forall c1 c2, leq zero (distanceTo c1 c2)) ->
  forall g, nonNegative g -> nonNegative (insertAll distanceTo g segs).
Proof.
  intros Pos. induction segs as [|[c1 c2] segs IH]; intros g NN; [exact NN|].
  simpl. apply IH. unfold addSegment.
  repeat first [apply nonNegative_setEdge | apply nonNegative_ensureNode];
    trivial.
Qed.

(** X5. When no distance is negative, no weight of the built graph is. *)
Theorem buildAdjacencyList_nonNegative :
  (forall c1 c2, leq zero (distanceTo c1 c2)) ->
  forall (roads : list (RoadFeature num)),
    nonNegative (buildAdjacencyList distanceTo roads).
Proof.
  intros Pos roads. rewrite build_insertAll.
  apply nonNegative_insertAll; [exact Pos|]. constructor.
Qed.
End BuilderExtras.

Section Reachability.
Context {num : Type} {N : Number num}.
Variable distanceTo : Coord num -> Coord num -> num.

Implicit Types (g : Graph num) (a b c : Key num).

Lemma reachable_refl g a : reachable g a a.
Proof.
  exists zero. constructor.
Qed.

Lemma reachable_step g a b c w :
  reachable g a b -> edge g b c = Some w -> reachable g a c.
Proof.
  intros [W Wk] E. exists (add W w). econstructor; eauto.
Qed.

Lemma reachable_trans g a b c :
  reachable g a b -> reachable g b c -> reachable g a c.
Proof.
  intros Rab [W Wk]. induction Wk as [|u v W w Wk IH E]; trivial.
  eapply reachable_step; eauto.
Qed.

(** X6. The roads can be walked in both directions: in the built graph a
    node that can be reached from another can reach it as well. *)
Theorem buildAdjacencyList_reachable_symmetric :
  forall (roads : list (RoadFeature num)) a b,
    reachable (buildAdjacencyList distanceTo roads) a b ->
    reachable (buildAdjacencyList distanceTo roads) b a.
Proof.
  intros roads a b [W Wk]. rewrite build_insertAll in *.
  induction Wk as [|u v W w Wk IH E]; [apply reachable_refl|].
  apply reachable_trans with (b := u); trivial.
  apply reachable_step with (b := v) (w := w); [apply reachable_refl|].
  rewrite <- E. apply symmetric_insertAll. reflexivity.
Qed.
End Reachability.

(** ** The shortest-path engine on any graph *)

Section DijkstraExtras.
Context {num : Type} {N : Number num}.

Implicit Types (g : Graph num) (start v u c : Key num) (st : DState num).
Implicit Types (D : Obj (Key num) num) (P : Obj (Key num) (option (Key num))).

Lemma mainLoop_start_absent g start end_ fuel :
  ~ In start (keys g) ->
  mainLoop fuel g end_ (initState g start) = Done (initState g start) \/
  mainLoop fuel g end_ (initState g start) = OutOfFuel /\ fuel = 0.
Proof.
  intros Abs. destruct fuel as [|fuel]; simpl;
    destruct (unvisited (initState g start)) as [|first rest] eqn:U; auto.
  destruct (iteration_cases g end_ (initState g start) U)
    as [[E _]|(Fin & _)]; [rewrite E; auto|].
  exfalso. set (c := selectMin _ first rest) in *.
  assert (I : In c (keys g)).
  { apply (new_Set_spec Key_eq_dec (keys g)).
    rewrite <- init_unvisited with (start := start), U. apply selectMin_In. }
  rewrite init_distances in Fin.
  destruct (Key_eq_dec start c) as [E|NE]; [congruence|].
  destruct (in_dec Key_eq_dec c (keys g)); [|contradiction].
  simpl in Fin. destruct (num_eq_dec Infinity Infinity); congruence.
Qed.

(** X7. When [start] is not a node of the graph, the main loop relaxes
    nothing and [dijkstra] returns the one-element path [[end]], whatever
    [end] is. *)
Theorem dijkstra_start_absent :
  forall g start end_ fuel,
    ~ In start (keys g) ->
    1 <= fuel ->
    dijkstra fuel g (Some start) (Some end_) = Done (Some [JSON_parse end_]).
Proof.
  intros g start end_ fuel Abs Len. unfold dijkstra.
  destruct (@mainLoop_start_absent g start end_ fuel Abs) as [->|[_ ->]]; [|lia].
  destruct fuel as [|fuel]; [lia|]. simpl.
  rewrite init_previous. now destruct fuel.
Qed.

Lemma relax_previous (adj : Obj (Key num) num) c (ns : list (Key num)) :
  forall D P D' P',
    fold_left (relaxNeighbor adj c) ns (D, P) = (D', P') ->
    forall v u,
      previousOf P' v = Some u ->
      previousOf P v = Some u \/ (u = c /\ get Key_eq_dec adj v <> None).
Proof.
  induction ns as [|n ns IH]; intros D P D' P' F v u Pv; cbn [fold_left] in F.
  - injection F as <- <-. now left.
  - destruct (relaxNeighbor_cases adj c D P n)
      as [E|(dc & w & dn & _ & Ga & _ & _ & E)]; rewrite E in F.
    + eapply IH; eauto.
    + destruct (IH _ _ _ _ F v u Pv) as [Q|Q]; [|now right].
      unfold previousOf in Q. rewrite get_set in Q.
      destruct (Key_eq_dec n v) as [<-|NE]; [|now left].
      injection Q as <-. right. split; congruence.
Qed.

Lemma Linked_init g start : Linked g (initState g start).
Proof.
  intros v u. rewrite init_previous. discriminate.
Qed.

Lemma Linked_iteration g end_ st st' :
  Linked g st -> iteration g end_ st = Continue st' -> Linked g st'.
Proof.
  intros L It. destruct (unvisited st) as [|first rest] eqn:U.
  { unfold iteration in It. rewrite U in It. discriminate. }
  destruct (iteration_cases g end_ st U)
    as [[E _]|(_ & _ & [[_ E]|(adj & D' & P' & G & F & E)])];
    rewrite E in It; try discriminate.
  injection It as <-. intros v u Pv. simpl in Pv.
  destruct (relax_previous _ _ _ _ _ F _ Pv) as [Q|[-> Q]].
  - now apply L.
  - now rewrite (edge_of_adj g _ v G).
Qed.

Lemma walkBack_follows g P :
  (forall v u, previousOf P v = Some u -> edge g u v <> None) ->
  forall fuel (s : Key num) acc path,
    followsEdges g (s :: acc) ->
    walkBack fuel P (Some s) acc = Done path ->
    followsEdges g path /\ exists front, path = front ++ s :: acc.
Proof.
  intros L. induction fuel as [|fuel IH]; intros s acc path F Wb;
    simpl in Wb; [discriminate|].
  destruct (previousOf P s) as [u|] eqn:Ps.
  - destruct (IH u (JSON_parse s :: acc) path) as (Fp & front & ->); trivial.
    + split; [|exact F]. now apply L.
    + split; trivial. exists (front ++ [u]). now rewrite <- app_assoc.
  - assert (E : path = s :: acc)
      by (destruct fuel; simpl in Wb; injection Wb as <-; reflexivity).
    subst path. split; trivial. now exists [].
Qed.

(** X8. Whatever the graph and its weights, a path that [dijkstra] returns
    is not empty, ends at [end], and joins consecutive coordinates by edges
    of the graph only. *)
Theorem dijkstra_path_shape :
  forall g start end_ fuel path,
    dijkstra fuel g (Some start) (Some end_) = Done (Some path) ->
    (exists front, path = front ++ [JSON_parse end_]) /\
    followsEdges g path.
Proof.
  intros g start end_ fuel path Dj. unfold dijkstra in Dj.
  destruct (mainLoop fuel g end_ (initState g start)) as [st| |] eqn:M;
    try discriminate.
  destruct (walkBack fuel (previous st) (Some end_) []) as [path'| |] eqn:Wb;
    try discriminate.
  injection Dj as ->.
  assert (L : Linked g st).
  { apply (@mainLoop_invariant _ _ g end_ (Linked g)) with (fuel := fuel)
      (st := initState g start) (st' := st); trivial.
    - intros st0 st1. apply Linked_iteration.
    - apply Linked_init. }
  destruct (@walkBack_follows g (previous st) L fuel end_ [] path I Wb)
    as (F & front & E).
  split; [eauto | trivial].
Qed.
End DijkstraExtras.

(** ** The shortest-path engine without negative weights: routes found *)

Section ShortestPathExtras.
Context {num : Type} {N : Number num} {Laws : NumberLaws num}.

Implicit Types (g : Graph num) (start v u c : Key num) (st : DState num).

Lemma walkBack_suffix (P : Obj (Key num) (option (Key num))) :
  forall fuel (s : Key num) acc path,
    walkBack fuel P (Some s) acc = Done path ->
    exists front, path = front ++ s :: acc.
Proof.
  induction fuel as [|fuel IH]; intros s acc path Wb; simpl in Wb;
    [discriminate|].
  destruct (previousOf P s) as [u|] eqn:Ps.
  - destruct (IH u (JSON_parse s :: acc) path Wb) as (front & ->).
    exists (front ++ [u]). now rewrite <- app_assoc.
  - exists []. destruct fuel; simpl in Wb; injection Wb as <-; reflexivity.
Qed.

(** Walking back from a removed node passes through nodes removed earlier
    only, and through none twice. *)
Lemma walkBack_simple g start vis st :
  Settled g start vis st ->
  forall n l1 x l2,
    vis = l1 ++ x :: l2 -> length l2 <= n ->
    forall fuel acc p,
      walkBack fuel (previous st) (Some x) acc = Done (p ++ acc) ->
      NoDup p /\ forall y, In y p -> y = x \/ In y l2.
Proof.
  intros S. induction n as [|n IH]; intros l1 x l2 Sp Len fuel acc p Wb;
    (destruct fuel as [|fuel]; [discriminate|]); simpl in Wb;
    destruct (previousOf (previous st) x) as [u|] eqn:Px.
  - destruct (inv_previous S _ Px) as (_ & _ & Ord).
    specialize (Ord _ _ Sp). destruct l2; [contradiction | simpl in Len; lia].
  - assert (E : p = [x]).
    { apply app_inv_tail with (l := acc).
      destruct fuel; simpl in Wb; injection Wb as <-; reflexivity. }
    subst p. split; [repeat constructor; simpl; tauto|].
    intros y [<-|[]]. now left.
  - destruct (inv_previous S _ Px) as (_ & _ & Ord).
    specialize (Ord _ _ Sp). apply in_split in Ord.
    destruct Ord as (m1 & m2 & ->).
    unfold JSON_parse in Wb.
    destruct (walkBack_suffix _ _ _ _ Wb) as (front & E).
    assert (Ep : p = (front ++ [u]) ++ [x]).
    { apply app_inv_tail with (l := acc). rewrite E, <- !app_assoc.
      reflexivity. }
    assert (Wb' : walkBack fuel (previous st) (Some u) (x :: acc)
                  = Done ((front ++ [u]) ++ x :: acc)).
    { etransitivity; [exact Wb|]. rewrite E, <- app_assoc. reflexivity. }
    destruct (IH (l1 ++ x :: m1) u m2) with (fuel := fuel) (acc := x :: acc)
      (p := front ++ [u]) as (ND & Sub); trivial.
    + rewrite Sp, <- app_assoc. reflexivity.
    + rewrite length_app in Len. simpl in Len. lia.
    + subst p.
      assert (Nx : ~ In x (m1 ++ u :: m2)).
      { pose proof (inv_nodup S) as NDv. rewrite Sp in NDv.
        apply NoDup_remove_2 in NDv. intros I. apply NDv.
        apply in_app_iff. now right. }
      assert (Sub' : forall y, In y (front ++ [u]) -> In y (m1 ++ u :: m2)).
      { intros y I. apply in_app_iff. right.
        destruct (Sub y I) as [->|I']; [now left | now right]. }
      split.
      * apply NoDup_app; repeat split; trivial.
        -- repeat constructor. simpl. tauto.
        -- intros y I [<-|[]]. apply Nx. now apply Sub'.
      * intros y I. apply in_app_iff in I. destruct I as [I|[<-|[]]].
        -- right. now apply Sub'.
        -- now left.
  - assert (E : p = [x]).
    { apply app_inv_tail with (l := acc).
      destruct fuel; simpl in Wb; injection Wb as <-; reflexivity. }
    subst p. split; [repeat constructor; simpl; tauto|].
    intros y [<-|[]]. now left.
Qed.

(** X9. Without negative weights a returned path passes through no
    coordinate twice. *)
Theorem dijkstra_path_simple :
  forall g start end_ fuel path,
    nonNegative g ->
    dijkstra fuel g (Some start) (Some end_) = Done (Some path) ->
    NoDup path.
Proof using Laws.
  intros g start end_ fuel path NN Dj. unfold dijkstra in Dj.
  destruct (mainLoop fuel g end_ (initState g start)) as [st| |] eqn:M;
    try discriminate.
  destruct (walkBack fuel (previous st) (Some end_) []) as [path'| |] eqn:Wb;
    try discriminate.
  injection Dj as ->.
  destruct (@mainLoop_Settled _ _ _ g start end_ fuel st NN M) as [[vis S] _].
  destruct (in_dec Key_eq_dec end_ vis) as [Ie|Ne].
  - apply in_split in Ie. destruct Ie as (l1 & l2 & Sp).
    apply (@walkBack_simple g start vis st S (length l2) l1 end_ l2 Sp
             (Nat.le_refl _) fuel [] path).
    now rewrite app_nil_r.
  - destruct fuel as [|fuel]; [discriminate|]. simpl in Wb.
    destruct (previousOf (previous st) end_) as [u|] eqn:Pe.
    + destruct (inv_previous S _ Pe) as (Iu & _ & _).
      apply in_split in Iu. destruct Iu as (l1 & l2 & Sp).
      destruct (walkBack_suffix _ _ _ _ Wb) as (front & E).
      assert (Wb' : walkBack fuel (previous st) (Some u) [JSON_parse end_]
                    = Done ((front ++ [u]) ++ [JSON_parse end_])).
      { etransitivity; [exact Wb|]. rewrite E, <- app_assoc. reflexivity. }
      destruct (@walkBack_simple g start vis st S (length l2) l1 u l2 Sp
                  (Nat.le_refl _) fuel [JSON_parse end_] (front ++ [u]) Wb')
        as (ND & Sub).
      assert (E' : path = (front ++ [u]) ++ [JSON_parse end_])
        by (rewrite E, <- app_assoc; reflexivity).
      rewrite E'. apply NoDup_app; repeat split; trivial.
      * repeat constructor. simpl. tauto.
      * intros y I [Ey|[]]. unfold JSON_parse in Ey. subst y.
        apply Ne. rewrite Sp. apply in_app_iff. right.
        destruct (Sub _ I) as [->|I']; [now left | now right].
    + assert (E : path = [JSON_parse end_])
        by (destruct fuel; simpl in Wb; injection Wb as <-; reflexivity).
      subst path. repeat constructor. simpl. tauto.
Qed.

Lemma dijkstra_route_found :
  forall g start end_ fuel W,
    nonNegative g ->
    In end_ (keys g) ->
    end_ <> start ->
    walk g start end_ W ->
    W <> Infinity ->
    length (keys g) < fuel ->
    exists path,
      dijkstra fuel g (Some start) (Some end_) = Done (Some path) /\
      2 <= length path.
Proof using Laws.
  intros g start end_ fuel W NN Ie NE Wk Fin Len. unfold dijkstra.
  destruct (@mainLoop_init_returns num N g start end_ fuel) as [st M]; [lia|].
  rewrite M.
  destruct (@mainLoop_Settled _ _ _ g start end_ fuel st NN M) as [[vis S] X].
  destruct fuel as [|fuel]; [lia|]. simpl.
  destruct (previousOf (previous st) end_) as [u|] eqn:Pe.
  - destruct (inv_previous S _ Pe) as (Iu & _ & _).
    apply in_split in Iu. destruct Iu as (l1 & l2 & Sp).
    pose proof (Settled_length S) as Lv.
    rewrite Sp, length_app in Lv. simpl in Lv.
    destruct (@walkBack_trail _ _ g start vis st S (length l2) l1 u l2 Sp
                (Nat.le_refl _) fuel [JSON_parse end_])
      as (p & d & Wb & T & _); [lia|].
    rewrite Wb. exists (p ++ [JSON_parse end_]). split; trivial.
    destruct (trail_head T) as [rest ->].
    rewrite length_app. simpl. lia.
  - exfalso. destruct (inv_root S end_ Ie Pe) as [E|Far]; [contradiction|].
    apply (inv_nodes S) in Ie. destruct Ie as [Iv|Iu].
    + now apply (inv_finite S) in Iv.
    + pose proof (@exited_bound _ _ _ g start end_ vis st Infinity NN S X Iu
                    Far W Wk) as B.
      apply Infinity_leq in B. contradiction.
Qed.

(** X10. Without negative weights [dijkstra] finds a route whenever there
    is one: if [end] is a node other than [start] and some walk of finite
    weight leads from [start] to it, the returned path has two coordinates
    or more. *)
Theorem dijkstra_finds_route :
  forall g start end_ fuel W,
    nonNegative g ->
    In end_ (keys g) ->
    end_ <> start ->
    walk g start end_ W ->
    W <> Infinity ->
    length (keys g) < fuel ->
    exists path,
      dijkstra fuel g (Some start) (Some end_) = Done (Some path) /\
      2 <= length path.
Proof using Laws.
  intros g start end_ fuel W NN Ie NE Wk Fin Len.
  destruct (@dijkstra_route_found g start end_ fuel W NN Ie NE Wk Fin Len)
    as (path & Dj & L2).
  exists path. split; [exact Dj | exact L2].
Qed.
End ShortestPathExtras.

(** ** The handler, the loader and the whole request *)

Section HandlerExtras.
Context {num : Type} {N : Number num}.
Variable distanceTo : Coord num -> Coord num -> num.

Implicit Types (st : State num) (features : list (PointFeature num)).

Lemma routeBetween_outcome fuel st startNode endNode st' msg :
  routeBetween fuel st startNode endNode = Done (st', msg) ->
  (msg = None /\ exists p, st' = setRoute st (Some p) /\ 2 <= length p) \/
  (msg <> None /\ (st' = st \/ st' = setRoute st None)).
Proof.
  unfold routeBetween. destruct startNode, endNode;
    try (intros E; injection E as <- <-; right; split; [discriminate | auto]).
  destruct (dijkstra fuel (adjacencyList st) (Some k) (Some k0)) as [[p|]| |];
    try discriminate.
  - destruct (length p <? 2) eqn:Len; intros E; injection E as <- <-.
    + right. split; [discriminate | auto].
    + left. split; trivial. exists p. split; trivial.
      now apply Nat.ltb_ge in Len.
  - intros E. injection E as <- <-. right. split; [discriminate | auto].
Qed.

(** X11. The handler changes nothing in the state but the stored route.
    It stays silent exactly when it stores a path, and a stored path has
    two coordinates or more; when it alerts, the route is left as it was or
    reset to null. *)
Theorem handleNavigation_outcome :
  forall fuel st st' msg,
    handleNavigation distanceTo fuel st = Done (st', msg) ->
    (points st' = points st /\
     startPoint st' = startPoint st /\
     endPoint st' = endPoint st /\
     adjacencyList st' = adjacencyList st) /\
    ((msg = None /\ exists p, st' = setRoute st (Some p) /\ 2 <= length p) \/
     (msg <> None /\ (st' = st \/ st' = setRoute st None))).
Proof.
  intros fuel st st' msg Hn.
  assert (O : (msg = None /\
               exists p, st' = setRoute st (Some p) /\ 2 <= length p) \/
              (msg <> None /\ (st' = st \/ st' = setRoute st None))).
  { unfold handleNavigation in Hn.
    destruct (falsy (startPoint st) || falsy (endPoint st)).
    { injection Hn as <- <-. right. split; [discriminate | auto]. }
    destruct (startPoint st) as [sn|]; [|discriminate].
    destruct (endPoint st) as [en|]; [|discriminate].
    destruct (points st) as [features|]; [|discriminate].
    destruct (coordinatesOf features sn) as [sc|];
      [|injection Hn as <- <-; right; split; [discriminate | auto]].
    destruct (coordinatesOf features en) as [ec|];
      [|injection Hn as <- <-; right; split; [discriminate | auto]].
    eapply routeBetween_outcome; eauto. }
  split; [|exact O].
  destruct O as [(_ & p & -> & _)|(_ & [->| ->])]; simpl; auto.
Qed.

(** X12. A name is resolved to the first point feature that bears it, and
    to nothing exactly when no feature bears it. *)
Theorem coordinatesOf_first_match :
  (forall (pre post : list (PointFeature num)) p n,
      name p = n ->
      (forall q, In q pre -> name q <> n) ->
      coordinatesOf (pre ++ p :: post) n = Some (coordinates p)) /\
  (forall features n,
      coordinatesOf features n = None <->
      forall q, In q features -> name q <> n).
Proof.
  split.
  - intros pre post p n Np Npre. unfold coordinatesOf.
    induction pre as [|q pre IH]; simpl.
    + rewrite Np, String.eqb_refl. reflexivity.
    + destruct (String.eqb_spec (name q) n) as [E|NE].
      * exfalso. apply (Npre q); [now left | exact E].
      * apply IH. intros q' I. apply Npre. now right.
  - intros features n. unfold coordinatesOf.
    induction features as [|q features IH]; simpl.
    + split; [intros _ q [] | reflexivity].
    + destruct (String.eqb_spec (name q) n) as [E|NE].
      * split; [discriminate|]. intros A. exfalso. apply (A q); auto.
      * rewrite IH. split.
        -- intros A q' [<-|I]; auto.
        -- intros A q' I. apply A. now right.
Qed.

Lemma nearer_keeps latlng (nodes : list (Key num)) : forall acc,
  fst acc <> None ->
  fst (fold_left (nearer distanceTo latlng) nodes acc) <> None.
Proof.
  induction nodes as [|node nodes IH]; intros [nearest minDistance] S;
    [exact S|].
  simpl. apply IH. unfold nearer.
  destruct (ltb _ minDistance); [discriminate | exact S].
Qed.

(** X13. When distances are finite numbers, the nearest-node lookup on the
    built graph fails exactly when no road feature has two coordinates or
    more. *)
Theorem findNearestNode_on_roads :
  forall latlng,
    (forall node, ltb (distanceTo latlng (JSON_parse node)) Infinity = true) ->
    forall (roads : list (RoadFeature num)),
      findNearestNode distanceTo (buildAdjacencyList distanceTo roads) latlng
      = None <->
      forall road, In road roads -> length road < 2.
Proof.
  intros latlng Finite roads. split.
  - intros E road I.
    destruct (Nat.lt_ge_cases (length road) 2) as [Lt|Ge]; trivial.
    exfalso. revert E. unfold findNearestNode.
    rewrite build_insertAll, keys_insertAll_fold.
    change (fold_left (Set_add Key_eq_dec) (endpoints (roadSegments roads))
              (keys ([] : Graph num)))
      with (new_Set Key_eq_dec (endpoints (roadSegments roads))).
    assert (S : exists s, In s (roadSegments roads)).
    { unfold roadSegments.
      destruct road as [|p [|q rest]]; simpl in Ge; try lia.
      exists (transpose p, transpose q). apply in_flat_map.
      exists (p :: q :: rest). split; [exact I | now left]. }
    destruct S as [[c1 c2] S].
    assert (In (JSON_stringify c1)
              (new_Set Key_eq_dec (endpoints (roadSegments roads)))) as Ik.
    { apply new_Set_spec. unfold endpoints. apply in_flat_map.
      exists (c1, c2). split; [exact S | now left]. }
    destruct (new_Set Key_eq_dec (endpoints (roadSegments roads)))
      as [|node nodes]; [contradiction|].
    simpl. apply nearer_keeps. unfold nearer. rewrite Finite. discriminate.
  - intros Short.
    assert (E : roadSegments roads = []).
    { unfold roadSegments. induction roads as [|road roads IH]; trivial.
      simpl. rewrite segments_short, IH; trivial.
      - intros r I. apply Short. now right.
      - rewrite length_map. apply Short. now left. }
    rewrite build_insertAll, E. reflexivity.
Qed.

(** X14. When the roads document could not be loaded the graph stays
    empty, and a request between two known points alerts that they are not
    connected to the road network and changes nothing. *)
Theorem navigation_without_roads :
  forall fuel features startName endName,
    startName <> EmptyString ->
    endName <> EmptyString ->
    coordinatesOf features startName <> None ->
    coordinatesOf features endName <> None ->
    let st :=
      setEndPoint
        (setStartPoint
           (onLoaded distanceTo None (Some features) initialState) startName)
        endName in
    handleNavigation distanceTo fuel st =
    Done (st, Some "Selected points are not connected to the road network!"%string).
Proof.
  intros fuel features startName endName Sn En Sc Ec st.
  rewrite (@handleNavigation_resolved _ _ distanceTo fuel st startName endName
             features eq_refl eq_refl Sn En eq_refl).
  destruct (coordinatesOf features startName); [|congruence].
  destruct (coordinatesOf features endName); [|congruence].
  reflexivity.
Qed.
End HandlerExtras.

Section WholeRequest.
Context {num : Type} {N : Number num} {Laws : NumberLaws num}.
Variable distanceTo : Coord num -> Coord num -> num.

Implicit Types (g : Graph num) (start : Key num).

Lemma dijkstra_returns g start end_ fuel :
  nonNegative g ->
  length (keys g) < fuel ->
  exists path, dijkstra fuel g (Some start) (Some end_) = Done (Some path).
Proof using Laws.
  intros NN Len. unfold dijkstra.
  destruct (@mainLoop_init_returns num N g start end_ fuel) as [st M]; [lia|].
  rewrite M.
  destruct (@mainLoop_Settled _ _ _ g start end_ fuel st NN M) as [[vis S] _].
  destruct fuel as [|fuel]; [lia|]. simpl.
  destruct (previousOf (previous st) end_) as [u|] eqn:Pe.
  - destruct (inv_previous S _ Pe) as (Iu & _ & _).
    apply in_split in Iu. destruct Iu as (l1 & l2 & Sp).
    pose proof (Settled_length S) as Lv.
    rewrite Sp, length_app in Lv. simpl in Lv.
    destruct (@walkBack_trail _ _ g start vis st S (length l2) l1 u l2 Sp
                (Nat.le_refl _) fuel [JSON_parse end_])
      as (p & d & Wb & _); [lia|].
    rewrite Wb. eauto.
  - destruct fuel; simpl; eauto.
Qed.

Lemma relax_assigned (adj : Obj (Key num) num) c (ns : list (Key num)) :
  forall D P D' P',
    (forall v u, previousOf P v = Some u ->
       exists d, get Key_eq_dec D v = Some d /\ d <> Infinity) ->
    fold_left (relaxNeighbor adj c) ns (D, P) = (D', P') ->
    forall v u, previousOf P' v = Some u ->
      exists d, get Key_eq_dec D' v = Some d /\ d <> Infinity.
Proof using Laws.
  induction ns as [|n ns IH]; intros D P D' P' Q F; cbn [fold_left] in F.
  - injection F as <- <-. exact Q.
  - destruct (relaxNeighbor_cases adj c D P n)
      as [E|(dc & w & dn & _ & _ & _ & L & E)]; rewrite E in F.
    + eapply IH; eauto.
    + eapply IH; [|exact F]. intros v u. unfold previousOf.
      rewrite !get_set. destruct (Key_eq_dec n v) as [<-|NE].
      * intros _. exists (add dc w). split; trivial.
        eapply lt_not_Infinity; eauto.
      * apply Q.
Qed.

Lemma mainLoop_Assigned g start end_ fuel st :
  mainLoop fuel g end_ (initState g start) = Done st -> Assigned st.
Proof using Laws.
  intros M.
  apply (@mainLoop_invariant _ _ g end_ Assigned) with (fuel := fuel)
    (st := initState g start) (st' := st); trivial.
  - intros st0 st1 A It. destruct (unvisited st0) as [|first rest] eqn:U.
    { unfold iteration in It. rewrite U in It. discriminate. }
    destruct (iteration_cases g end_ st0 U)
      as [[E _]|(_ & _ & [[_ E]|(adj & D' & P' & G & F & E)])];
      rewrite E in It; try discriminate.
    injection It as <-. intros v u Pv. simpl in *.
    eapply relax_assigned; eauto.
  - intros v u. rewrite init_previous. discriminate.
Qed.

(** A returned path of two coordinates or more is the node sequence of a
    lightest walk from [start] to [end], and its weight is finite. *)
Lemma dijkstra_lightest_trail g start end_ fuel path :
  nonNegative g ->
  dijkstra fuel g (Some start) (Some end_) = Done (Some path) ->
  2 <= length path ->
  exists d,
    trail g start path end_ d /\
    d <> Infinity /\
    forall W, walk g start end_ W -> leq d W.
Proof using Laws.
  intros NN Dj Len. unfold dijkstra in Dj.
  destruct (mainLoop fuel g end_ (initState g start)) as [st| |] eqn:M;
    try discriminate.
  destruct (walkBack fuel (previous st) (Some end_) []) as [path'| |] eqn:Wb;
    try discriminate.
  injection Dj as ->.
  destruct (@mainLoop_Settled _ _ _ g start end_ fuel st NN M) as [[vis S] X].
  destruct fuel as [|fuel]; [discriminate|]. simpl in Wb.
  destruct (previousOf (previous st) end_) as [u|] eqn:Pe.
  2:{ assert (E : path = [JSON_parse end_])
        by (destruct fuel; simpl in Wb; injection Wb as <-; reflexivity).
      subst path. simpl in Len. lia. }
  destruct (inv_previous S _ Pe) as (Iu & (du & w & Du & Ed & De) & _).
  apply in_split in Iu. destruct Iu as (l1 & l2 & Sp).
  destruct (@walkBack_trail _ _ g start vis st S (length l2) l1 u l2 Sp
              (Nat.le_refl _) (Nat.max fuel (1 + length l2))
              [JSON_parse end_])
    as (p & d & Wb' & T & Du'); [lia|].
  apply walkBack_more with (fuel' := Nat.max fuel (1 + length l2)) in Wb;
    [|lia].
  rewrite Wb in Wb'. injection Wb' as ->.
  rewrite Du in Du'. injection Du' as <-.
  exists (add du w). split; [|split].
  - now apply trail_step with (u := u).
  - destruct (@mainLoop_Assigned g start end_ _ st M end_ u Pe)
      as (d' & De' & Fin).
    congruence.
  - intros W Wk.
    assert (Ie : In end_ (keys g)).
    { destruct (inv_domain S end_) as [I|E]; trivial; [congruence|].
      subst end_. rewrite (inv_start_previous S) in Pe. discriminate. }
    apply (inv_nodes S) in Ie. destruct Ie as [Ie|Ie].
    + eapply inv_optimal; eauto.
    + eapply exited_bound; eauto.
Qed.

Lemma findNearestNode_In g latlng n :
  findNearestNode distanceTo g latlng = Some n -> In n (keys g).
Proof using Laws.
  intros E. destruct (findNearestNode_scanned distanceTo latlng g)
    as [minDistance S].
  unfold scanned in S. simpl in S. rewrite E in S.
  destruct S as (_ & pre & post & -> & _).
  apply in_app_iff. right. now left.
Qed.

(** X15. The whole request, once roads and points are loaded and two known
    names are selected, for distances that are finite and not negative.
    The handler returns; it stores a route exactly when the nodes nearest
    to the two points differ and are joined by a walk of finite weight;
    and a stored route leads from the node nearest to the start point to
    the node nearest to the end point along edges of the graph, with the
    least total weight of all such walks. *)
Theorem navigation_on_loaded_roads :
  (forall c1 c2, leq zero (distanceTo c1 c2)) ->
  (forall c1 c2, ltb (distanceTo c1 c2) Infinity = true) ->
  forall fuel (roads : list (RoadFeature num)) features
         startName endName startCoords endCoords st0,
    startName <> EmptyString ->
    endName <> EmptyString ->
    coordinatesOf features startName = Some startCoords ->
    coordinatesOf features endName = Some endCoords ->
    length (keys (buildAdjacencyList distanceTo roads)) < fuel ->
    let g := buildAdjacencyList distanceTo roads in
    let st :=
      setEndPoint
        (setStartPoint
           (onLoaded distanceTo (Some roads) (Some features) st0) startName)
        endName in
    let startNode := findNearestNode distanceTo g (transpose startCoords) in
    let endNode := findNearestNode distanceTo g (transpose endCoords) in
    exists st' msg,
      handleNavigation distanceTo fuel st = Done (st', msg) /\
      (msg = None <->
       exists s e W,
         startNode = Some s /\ endNode = Some e /\ s <> e /\
         walk g s e W /\ W <> Infinity) /\
      (msg = None ->
       exists s e path d,
         startNode = Some s /\ endNode = Some e /\
         route st' = Some path /\
         trail g s path e d /\
         followsEdges g path /\
         pathWeight g path = Some d /\
         forall W, walk g s e W -> leq d W).
Proof using Laws.
  intros Pos Finite fuel roads features startName endName startCoords endCoords
    st0 Sn En Sc Ec Len g st startNode endNode.
  assert (NN : nonNegative g).
  { unfold g. rewrite build_insertAll.
    apply nonNegative_insertAll; [exact Pos | constructor]. }
  rewrite (@handleNavigation_resolved _ _ distanceTo fuel st startName endName
             features eq_refl eq_refl Sn En eq_refl), Sc, Ec.
  change (adjacencyList st) with g. fold startNode endNode.
  unfold routeBetween. change (adjacencyList st) with g.
  destruct startNode as [s|] eqn:Ns.
  2:{ do 2 eexists. split; [destruct endNode; reflexivity|].
      split; [split|]; try discriminate.
      intros (s & e & W & D & _). discriminate. }
  destruct endNode as [e|] eqn:Ne.
  2:{ do 2 eexists. split; [reflexivity|].
      split; [split|]; try discriminate.
      intros (s' & e & W & _ & D & _). discriminate. }
  destruct (@dijkstra_returns g s e fuel NN Len) as [path Dj]. rewrite Dj.
  destruct (length path <? 2) eqn:Short.
  - do 2 eexists. split; [reflexivity|].
    split; [split|]; try discriminate.
    intros (s' & e' & W & Es & Ee & NE & Wk & Fin).
    injection Es as <-. injection Ee as <-. exfalso.
    destruct (@dijkstra_route_found _ _ _ g s e fuel W NN) as (path' & Dj' & L2);
      trivial.
    + eapply findNearestNode_In; eauto.
    + congruence.
    + rewrite Dj in Dj'. injection Dj' as <-.
      apply Nat.ltb_lt in Short. lia.
  - apply Nat.ltb_ge in Short.
    destruct (@dijkstra_lightest_trail g s e fuel path NN Dj Short)
      as (d & T & Fin & Opt).
    do 2 eexists. split; [reflexivity|]. split; [split; trivial|].
    + intros _. exists s, e, d. repeat split; trivial.
      * intros <-. pose proof (@dijkstra_same _ _ g s fuel) as Same.
        rewrite Dj in Same. assert (1 <= fuel) as F1 by lia.
        specialize (Same F1). injection Same as ->. simpl in Short. lia.
      * now apply trail_walk with (p := path).
    + intros _. exists s, e, path, d. simpl. repeat split; trivial.
      * exact (trail_followsEdges T).
      * exact (trail_weight T).
Qed.
End WholeRequest.

Section ResolverExtras.
Context {num : Type} {N : Number num} {Laws : NumberLaws num}.
Variable distanceTo : Coord num -> Coord num -> num.

(** X16. A target that lies on a node of the graph is resolved to that
    very node, provided the distance from the target is never negative and
    is zero for the target itself and for no other node. *)
Theorem findNearestNode_on_node :
  forall (g : Graph num) (latlng : Coord num),
    In (JSON_stringify latlng) (keys g) ->
    distanceTo latlng latlng = zero ->
    (forall node, In node (keys g) ->
       leq zero (distanceTo latlng (JSON_parse node))) ->
    (forall node, In node (keys g) ->
       distanceTo latlng (JSON_parse node) = zero ->
       node = JSON_stringify latlng) ->
    findNearestNode distanceTo g latlng = Some (JSON_stringify latlng).
Proof using Laws.
  intros g latlng I Z Pos Sep.
  destruct (findNearestNode_scanned distanceTo latlng g) as [minDistance S].
  unfold scanned in S. simpl in S.
  destruct (findNearestNode distanceTo g latlng) as [n|].
  - destruct S as (_ & pre & post & E & Pre & Post).
    assert (In_n : In n (keys g))
      by (rewrite E; apply in_app_iff; right; now left).
    assert (Le : leq (distanceTo latlng (JSON_parse n)) zero).
    { rewrite <- Z. rewrite E in I. apply in_app_iff in I.
      destruct I as [I|[En|I]].
      - apply lt_leq. apply (Pre _ I).
      - rewrite En. apply leq_refl.
      - apply (Post _ I). }
    f_equal. apply Sep; trivial.
    apply leq_antisym; [exact Le | now apply Pos].
  - exfalso. destruct S as [_ Far]. specialize (Far _ I).
    unfold JSON_parse, JSON_stringify in Far.
    rewrite Z, zero_finite in Far. discriminate.
Qed.
End ResolverExtras.

Section SamePoint.
Context {num : Type} {N : Number num}.
Variable distanceTo : Coord num -> Coord num -> num.

(** X17. Selecting the same name as start and as destination never gives a
    route: once the points are loaded the handler alerts, and it leaves the
    state as it was or resets the stored route. *)
Theorem handleNavigation_same_point :
  forall fuel (st : State num) (n : string) features,
    1 <= fuel ->
    startPoint st = Some n ->
    endPoint st = Some n ->
    points st = Some features ->
    exists st' text,
      handleNavigation distanceTo fuel st = Done (st', Some text) /\
      (st' = st \/ st' = setRoute st None).
Proof.
  intros fuel st n features Len Sp Ep Pt.
  destruct (String.eqb_spec n EmptyString) as [E|NE].
  - unfold handleNavigation. rewrite Sp. simpl.
    subst n. simpl. eauto.
  - rewrite (@handleNavigation_resolved _ _ distanceTo fuel st n n features
               Sp Ep NE NE Pt).
    destruct (coordinatesOf features n) as [c|]; [|eauto].
    unfold routeBetween.
    destruct (findNearestNode distanceTo (adjacencyList st) (transpose c))
      as [node|]; [|eauto].
    rewrite dijkstra_same by exact Len. simpl. eauto.
Qed.
End SamePoint.

(** ** The further properties on concrete inputs *)

Lemma taxicab_nonNegative : forall c1 c2 : Coord ZInf, leq zero (taxicab c1 c2).
Proof.
  intros c1 c2. unfold leq, taxicab. simpl. apply Z.ltb_ge. lia.
Qed.

Lemma taxicab_finite :
  forall c1 c2 : Coord ZInf, ltb (taxicab c1 c2) Infinity = true.
Proof.
  reflexivity.
Qed.

Lemma scenario_walk : walk scenarioGraph (at_ 0 0) (at_ 1 1) (Fin 15).
Proof.
  change (walk scenarioGraph (at_ 0 0) (at_ 1 1)
            (add (add zero (Fin 10)) (Fin 5))).
  apply walk_step with (u := at_ 0 1); [|reflexivity].
  apply walk_step with (u := at_ 0 0); [|reflexivity].
  constructor.
Qed.

Lemma buildAdjacencyList_no_isolated_node_witness :
  In (at_ 0 1) (keys (buildAdjacencyList taxicab twoRoads)) /\
  exists b, edge (buildAdjacencyList taxicab twoRoads) (at_ 0 1) b <> None.
Proof.
  assert (I : In (at_ 0 1) (keys (buildAdjacencyList taxicab twoRoads)))
    by (simpl; auto).
  split; [exact I|].
  apply (proj1 (@buildAdjacencyList_no_isolated_node _ _ taxicab twoRoads)
           (at_ 0 1) I).
Defined.

Lemma buildAdjacencyList_short_feature_witness :
  length [at_ 7 7] < 2 /\
  buildAdjacencyList taxicab ([[at_ 0 0; at_ 1 0]] ++ [at_ 7 7] :: twoRoads) =
  buildAdjacencyList taxicab ([[at_ 0 0; at_ 1 0]] ++ twoRoads).
Proof.
  split; [simpl; lia|].
  apply (buildAdjacencyList_short_feature taxicab
           [[at_ 0 0; at_ 1 0]] twoRoads [at_ 7 7]).
  simpl. lia.
Defined.

Lemma buildAdjacencyList_nonNegative_witness :
  (forall c1 c2 : Coord ZInf, leq zero (taxicab c1 c2)) /\
  nonNegative (buildAdjacencyList taxicab twoRoads).
Proof.
  split; [exact taxicab_nonNegative|].
  apply (buildAdjacencyList_nonNegative taxicab taxicab_nonNegative twoRoads).
Defined.

Lemma buildAdjacencyList_reachable_symmetric_witness :
  reachable (buildAdjacencyList taxicab twoRoads) (at_ 0 0) (at_ 0 1) /\
  reachable (buildAdjacencyList taxicab twoRoads) (at_ 0 1) (at_ 0 0).
Proof.
  assert (R : reachable (buildAdjacencyList taxicab twoRoads)
                (at_ 0 0) (at_ 0 1)).
  { exists (add zero (Fin 1)).
    apply walk_step with (u := at_ 0 0); [constructor | reflexivity]. }
  split; [exact R|].
  apply (@buildAdjacencyList_reachable_symmetric _ _ taxicab twoRoads
           (at_ 0 0) (at_ 0 1) R).
Defined.

Lemma dijkstra_start_absent_witness :
  ~ In (at_ 9 9) (keys scenarioGraph) /\
  dijkstra 1 scenarioGraph (Some (at_ 9 9)) (Some (at_ 0 0))
  = Done (Some [JSON_parse (at_ 0 0)]).
Proof.
  assert (A : ~ In (at_ 9 9) (keys scenarioGraph))
    by (simpl; intros [E|[E|[E|[]]]]; discriminate).
  split; [exact A|].
  apply (@dijkstra_start_absent _ _ scenarioGraph (at_ 9 9) (at_ 0 0) 1 A).
  lia.
Defined.

Lemma dijkstra_path_shape_witness :
  dijkstra 4 scenarioGraph (Some (at_ 0 0)) (Some (at_ 1 1))
  = Done (Some [at_ 0 0; at_ 0 1; at_ 1 1]) /\
  (exists front, [at_ 0 0; at_ 0 1; at_ 1 1] = front ++ [JSON_parse (at_ 1 1)]) /\
  followsEdges scenarioGraph [at_ 0 0; at_ 0 1; at_ 1 1].
Proof.
  split; [reflexivity|].
  apply (@dijkstra_path_shape _ _ scenarioGraph (at_ 0 0) (at_ 1 1) 4
           [at_ 0 0; at_ 0 1; at_ 1 1]).
  reflexivity.
Defined.

Lemma dijkstra_path_simple_witness :
  nonNegative scenarioGraph /\
  dijkstra 4 scenarioGraph (Some (at_ 0 0)) (Some (at_ 1 1))
  = Done (Some [at_ 0 0; at_ 0 1; at_ 1 1]) /\
  NoDup [at_ 0 0; at_ 0 1; at_ 1 1].
Proof.
  assert (NN : nonNegative scenarioGraph) by (repeat constructor).
  split; [exact NN|]. split; [reflexivity|].
  apply (@dijkstra_path_simple _ _ _ scenarioGraph (at_ 0 0) (at_ 1 1) 4
           [at_ 0 0; at_ 0 1; at_ 1 1] NN).
  reflexivity.
Defined.

Lemma dijkstra_finds_route_witness :
  nonNegative scenarioGraph /\
  walk scenarioGraph (at_ 0 0) (at_ 1 1) (Fin 15) /\
  exists path,
    dijkstra 4 scenarioGraph (Some (at_ 0 0)) (Some (at_ 1 1))
    = Done (Some path) /\
    2 <= length path.
Proof.
  assert (NN : nonNegative scenarioGraph) by (repeat constructor).
  split; [exact NN|]. split; [exact scenario_walk|].
  apply (@dijkstra_finds_route _ _ _ scenarioGraph (at_ 0 0) (at_ 1 1) 4
           (Fin 15) NN).
  - simpl. auto.
  - discriminate.
  - exact scenario_walk.
  - discriminate.
  - simpl. lia.
Defined.

Lemma handleNavigation_outcome_witness :
  handleNavigation taxicab 4 (sampleState (Some Gate) (Some Library))
  = Done (setRoute (sampleState (Some Gate) (Some Library))
            (Some [at_ 0 0; at_ 0 1; at_ 1 1]), None) /\
  adjacencyList
    (setRoute (sampleState (Some Gate) (Some Library))
       (Some [at_ 0 0; at_ 0 1; at_ 1 1]))
  = adjacencyList (sampleState (Some Gate) (Some Library)).
Proof.
  assert (E : handleNavigation taxicab 4
                (sampleState (Some Gate) (Some Library))
              = Done (setRoute (sampleState (Some Gate) (Some Library))
                        (Some [at_ 0 0; at_ 0 1; at_ 1 1]), None))
    by reflexivity.
  split; [exact E|].
  apply (proj1 (@handleNavigation_outcome _ _ taxicab 4 _ _ _ E)).
Defined.

Lemma coordinatesOf_first_match_witness :
  name {| name := Gate; coordinates := at_ 0 0 |} = Gate /\
  coordinatesOf
    ([{| name := Library; coordinates := at_ 1 1 |}]
       ++ {| name := Gate; coordinates := at_ 0 0 |}
       :: [{| name := Gate; coordinates := at_ 5 5 |}]) Gate
  = Some (at_ 0 0).
Proof.
  split; [reflexivity|].
  apply (proj1 (@coordinatesOf_first_match ZInf)
           [{| name := Library; coordinates := at_ 1 1 |}]
           [{| name := Gate; coordinates := at_ 5 5 |}]
           {| name := Gate; coordinates := at_ 0 0 |} Gate eq_refl).
  intros q [<-|[]]. discriminate.
Defined.

Lemma findNearestNode_on_roads_witness :
  (forall node : Key ZInf,
      ltb (taxicab (at_ 3 3) (JSON_parse node)) Infinity = true) /\
  (forall road, In road [[at_ 7 7]; []] -> length road < 2) /\
  findNearestNode taxicab (buildAdjacencyList taxicab [[at_ 7 7]; []]) (at_ 3 3)
  = None.
Proof.
  assert (Short : forall road : RoadFeature ZInf,
             In road [[at_ 7 7]; []] -> length road < 2)
    by (intros road [<-|[<-|[]]]; simpl; lia).
  split; [intros node; reflexivity|]. split; [exact Short|].
  apply (proj2 (@findNearestNode_on_roads _ _ taxicab (at_ 3 3)
                  (fun node => taxicab_finite (at_ 3 3) (JSON_parse node))
                  [[at_ 7 7]; []])).
  exact Short.
Defined.

Lemma navigation_without_roads_witness :
  handleNavigation taxicab 4
    (setEndPoint
       (setStartPoint (onLoaded taxicab None (Some samplePoints) initialState)
          Gate) Library)
  = Done
      (setEndPoint
         (setStartPoint (onLoaded taxicab None (Some samplePoints) initialState)
            Gate) Library,
       Some "Selected points are not connected to the road network!"%string).
Proof.
  apply (@navigation_without_roads _ _ taxicab 4 samplePoints Gate Library);
    discriminate.
Defined.

Lemma navigation_on_loaded_roads_witness :
  exists st' msg,
    handleNavigation taxicab 6
      (setEndPoint
         (setStartPoint
            (onLoaded taxicab (Some twoRoads) (Some samplePoints) initialState)
            Gate) Library)
    = Done (st', msg) /\
    (msg = None ->
     exists s e path d,
       findNearestNode taxicab (buildAdjacencyList taxicab twoRoads)
         (transpose (at_ 0 0)) = Some s /\
       findNearestNode taxicab (buildAdjacencyList taxicab twoRoads)
         (transpose (at_ 1 1)) = Some e /\
       route st' = Some path /\
       trail (buildAdjacencyList taxicab twoRoads) s path e d /\
       followsEdges (buildAdjacencyList taxicab twoRoads) path /\
       pathWeight (buildAdjacencyList taxicab twoRoads) path = Some d /\
       forall W, walk (buildAdjacencyList taxicab twoRoads) s e W -> leq d W).
Proof.
  assert (NG : Gate <> EmptyString) by discriminate.
  assert (NL : Library <> EmptyString) by discriminate.
  assert (Len : length (keys (buildAdjacencyList taxicab twoRoads)) < 6)
    by (simpl; lia).
  destruct (@navigation_on_loaded_roads ZInf _ _ taxicab
              taxicab_nonNegative taxicab_finite 6 twoRoads samplePoints
              Gate Library (at_ 0 0) (at_ 1 1) initialState
              NG NL eq_refl eq_refl Len)
    as (st' & msg & Hn & _ & Stored).
  exists st', msg. split; [exact Hn | exact Stored].
Defined.

Lemma findNearestNode_on_node_witness :
  In (JSON_stringify (at_ 0 1)) (keys scenarioGraph) /\
  findNearestNode taxicab scenarioGraph (at_ 0 1)
  = Some (JSON_stringify (at_ 0 1)).
Proof.
  assert (I : In (JSON_stringify (at_ 0 1)) (keys scenarioGraph))
    by (simpl; auto).
  split; [exact I|].
  apply (@findNearestNode_on_node _ _ _ taxicab scenarioGraph (at_ 0 1) I).
  - reflexivity.
  - intros node _. apply taxicab_nonNegative.
  - intros node [<-|[<-|[<-|[]]]]; try reflexivity; discriminate.
Defined.

Lemma handleNavigation_same_point_witness :
  exists st' text,
    handleNavigation taxicab 1 (sampleState (Some Gate) (Some Gate))
    = Done (st', Some text) /\
    (st' = sampleState (Some Gate) (Some Gate) \/
     st' = setRoute (sampleState (Some Gate) (Some Gate)) None).
Proof.
  apply (@handleNavigation_same_point _ _ taxicab 1
           (sampleState (Some Gate) (Some Gate)) Gate samplePoints);
    [lia | reflexivity | reflexivity | reflexivity].
Defined.
